(** * kp: harvesting engine of the kp.ru article spider

    Shallow embedding of [kp/spiders/kp_articles.py] (pagination harvester and
    field extractor) and of [kp/pipelines.py] (photo post-processor and Mongo
    storage sink), with the properties of the written specification stated
    over it. *)

From Stdlib Require Import ZArith NArith Ascii String List Lia.
From stdpp Require Import base decidable option list gmap strings fin_maps.

Open Scope Z_scope.

(** ** Python strings

    A Python [str] is a sequence of Unicode code points. *)

Definition pystr : Type := list N.

(** ASCII literal to Python string (used for examples and constants). *)
Definition py (s : string) : pystr :=
  List.map N_of_ascii (list_ascii_of_string s).

Definition SPACE : N := 32%N.
Definition QUESTION : N := 63%N.
Definition COMMA : N := 44%N.
Definition SEMICOLON : N := 59%N.
Definition AMPERSAND : N := 38%N.
Definition NEWLINE : N := 10%N.

(** Unicode whitespace as CPython decides it ([Py_UNICODE_ISSPACE]); both
    [str.strip()] without argument and the class [\s] of [re] on [str]
    patterns use this test. *)
Definition isspace (c : N) : bool :=
  ((9 <=? c) && (c <=? 13) || (28 <=? c) && (c <=? 32)
   || (c =? 133) || (c =? 160) || (c =? 5760)
   || (8192 <=? c) && (c <=? 8202)
   || (c =? 8232) || (c =? 8233) || (c =? 8239) || (c =? 8287)
   || (c =? 12288))%N.

(** [re.sub(r"\s+", " ", s)]: a left-to-right scan in which every maximal run
    of whitespace is replaced by one space; [in_run] tells that the previous
    character belonged to the run being replaced. *)
Fixpoint re_sub_ws (in_run : bool) (s : pystr) : pystr :=
  match s with
  | [] => []
  | c :: r =>
      if isspace c
      then (if in_run then re_sub_ws true r else SPACE :: re_sub_ws true r)
      else c :: re_sub_ws false r
  end.

(** [str.lstrip()], [str.rstrip()], [str.strip()]. *)
Fixpoint lstrip (s : pystr) : pystr :=
  match s with
  | [] => []
  | c :: r => if isspace c then lstrip r else s
  end.

Fixpoint rstrip (s : pystr) : pystr :=
  match s with
  | [] => []
  | c :: r =>
      match rstrip r with
      | [] => if isspace c then [] else [c]
      | r' => c :: r'
      end
  end.

Definition strip (s : pystr) : pystr := rstrip (lstrip s).

(** Truthiness of an optional string, and Python's [a or b] on them. *)
Definition truthy (o : option pystr) : bool :=
  match o with
  | Some (_ :: _) => true
  | _ => false
  end.

Definition py_or (a b : option pystr) : option pystr :=
  if truthy a then a else b.

(** [s or ""] *)
Definition or_empty (o : option pystr) : pystr :=
  match o with
  | Some s => s
  | None => []
  end.

(** [clean_text], kp_articles.py line 182:
    [re.sub(r"\s+", " ", (s or "")).strip()] *)
Definition clean_text (s : option pystr) : pystr :=
  strip (re_sub_ws false (or_empty s)).


(** [s.split(sep)] for a one-character separator class: the pieces between
    separators, always at least one piece.  [re.split(r",|;|&", s)] is the
    same scan with a three-character class. *)
Fixpoint split_on (sep : N -> bool) (s : pystr) : list pystr :=
  match s with
  | [] => [[]]
  | c :: r =>
      if sep c then [] :: split_on sep r
      else match split_on sep r with
           | [] => [[c]]
           | w :: ws => (c :: w) :: ws
           end
  end.

(** [s.split("?")[0]] *)
Definition before_query (s : pystr) : pystr :=
  hd [] (split_on (N.eqb QUESTION) s).

(** ["\n".join(parts)] *)
Fixpoint join (sep : pystr) (parts : list pystr) : pystr :=
  match parts with
  | [] => []
  | [x] => x
  | x :: rest => x ++ sep ++ join sep rest
  end.

(** The comprehension [[clean_text(x) for x in xs if clean_text(x)]]. *)
Fixpoint clean_all (xs : list pystr) : list pystr :=
  match xs with
  | [] => []
  | x :: rest =>
      if truthy (Some (clean_text (Some x)))
      then clean_text (Some x) :: clean_all rest
      else clean_all rest
  end.

(** [list(dict.fromkeys(xs))]: keys are inserted in order and a key that is
    already present keeps its position. *)
Definition dict_fromkeys (xs : list pystr) : list pystr :=
  fold_left (fun keys x => if decide (x ∈ keys) then keys else keys ++ [x]) xs [].

(** ** Python values, exceptions, items *)

Inductive value : Type :=
  | VNone
  | VStr (s : pystr)
  | VList (l : list pystr)
  | VObjectId (n : N).

Global Instance value_eq_dec : EqDecision value.
Proof. solve_decision. Defined.

(** Truthiness of a value ([if v:]). *)
Definition value_truthy (v : value) : bool :=
  match v with
  | VNone => false
  | VStr s => truthy (Some s)
  | VList l => match l with [] => false | _ => true end
  | VObjectId _ => true
  end.

(** The exceptions the code names, and every other [Exception]. *)
Inductive exn : Type :=
  | InvalidUrlClientError
  | DuplicateKeyError
  | WriteError
  | KeyError (key : string)
  | OtherException (name : string).

Global Instance exn_eq_dec : EqDecision exn.
Proof. solve_decision. Defined.

(** A [KpArticleItem] (items.py), and the [dict] made of it: the fields that
    are set, by name. *)
Definition Item : Type := gmap string value.

Definition KpArticleItem_fields : gset string :=
  {[ "title"; "description"; "article_text"; "publication_datetime";
     "keywords"; "authors"; "source_url";
     "header_photo_url"; "header_photo_base64" ]}%string.

(** [item.get(k)]: [None] when the field is not set. *)
Definition item_get (item : Item) (k : string) : value :=
  default VNone (item !! k).

(** ** Extractor: [parse_article] *)

(** What the XPath queries of [parse_article] return on one response;
    [.get()] gives a string or [None], [.getall()] a list of strings. *)
Record Response : Type := {
  url : pystr;
  h1_text : option pystr;              (* normalize-space(//h1) *)
  og_title : option pystr;             (* //meta[@property='og:title']/@content *)
  meta_description : option pystr;     (* //meta[@name='description']/@content *)
  og_description : option pystr;       (* //meta[@property='og:description']/@content *)
  published_time : option pystr;       (* //meta[@property='article:published_time']/@content *)
  time_datetime : option pystr;        (* //time/@datetime *)
  og_image : option pystr;             (* //meta[@property='og:image']/@content *)
  meta_keywords : option pystr;        (* //meta[@name='keywords']/@content *)
  tag_texts : list pystr;              (* //a[contains(@href,'/tag/')]/text() *)
  meta_author : option pystr;          (* //meta[@name='author']/@content *)
  author_texts : list pystr;           (* //*[contains(@class,'author') ...]//text() *)
  body_texts : list pystr              (* text nodes of the first content-body div *)
}.

Definition is_author_sep (c : N) : bool :=
  (N.eqb c COMMA || N.eqb c SEMICOLON || N.eqb c AMPERSAND)%bool.

Definition extract_title (r : Response) : pystr :=
  clean_text (py_or (h1_text r) (og_title r)).

Definition extract_description (r : Response) : pystr :=
  clean_text (py_or (meta_description r) (og_description r)).

Definition extract_publication_datetime (r : Response) : pystr :=
  clean_text (py_or (published_time r) (time_datetime r)).

(** [clean_text(...) or None] *)
Definition extract_header_photo_url (r : Response) : value :=
  match clean_text (og_image r) with
  | [] => VNone
  | u => VStr u
  end.

Definition extract_keywords (r : Response) : list pystr :=
  if truthy (meta_keywords r)
  then clean_all (split_on (N.eqb COMMA) (or_empty (meta_keywords r)))
  else clean_all (tag_texts r).

Definition extract_authors (r : Response) : list pystr :=
  if truthy (meta_author r)
  then clean_all (split_on is_author_sep (or_empty (meta_author r)))
  else dict_fromkeys (clean_all (author_texts r)).

Definition extract_article_text (r : Response) : pystr :=
  join [NEWLINE] (clean_all (body_texts r)).

(** [parse_article] yields exactly one item. *)
Definition parse_article (r : Response) : Item :=
  let source_url := before_query (url r) in
  <[ "title" := VStr (extract_title r) ]>
  (<[ "description" := VStr (extract_description r) ]>
  (<[ "article_text" := VStr (extract_article_text r) ]>
  (<[ "publication_datetime" := VStr (extract_publication_datetime r) ]>
  (<[ "header_photo_url" := extract_header_photo_url r ]>
  (<[ "header_photo_base64" := VNone ]>
  (<[ "keywords" := VList (extract_keywords r) ]>
  (<[ "authors" := VList (extract_authors r) ]>
  (<[ "source_url" := VStr source_url ]> (∅ : Item))))))))).

(** ** Results of fallible code *)

Definition result (A : Type) : Type := (exn + A)%type.

Definition rbind {A B : Type} (m : result A) (k : A -> result B) : result B :=
  match m with
  | inl e => inl e
  | inr a => k a
  end.

(** ** Image post-processor: [PhotoDownloaderPipeline] *)

Module PhotoDownloaderPipeline.

Definition bytes : Type := list Byte.byte.

(** An [aiohttp] response: its status and what [await response.read()]
    gives. *)
Record HttpResponse : Type := {
  status : Z;
  read : result bytes
}.

(** The collaborators of the step: the HTTP client, Pillow and [base64].
    [session_get] raises [InvalidUrlClientError] for a URL that aiohttp
    cannot parse, and may raise any other client error. *)
Record Env : Type := {
  Img : Type;
  session_get : value -> result HttpResponse;
  Image_open : bytes -> result Img;
  mode : Img -> string;
  convert_RGB : Img -> result Img;
  save_JPEG : Z -> Img -> result bytes;   (* quality, image *)
  b64encode : bytes -> pystr
}.

(** The pipeline object: [self.result_image_quality]. *)
Record t : Type := { result_image_quality : Z }.

(** [from_crawler] with the setting absent: quality 35. *)
Definition default : t := {| result_image_quality := 35 |}.

Definition compress_image (env : Env) (self : t) (image_content : bytes)
  : result bytes :=
  rbind (Image_open env image_content) (fun img =>
  rbind (if (String.eqb (mode env img) "RGBA" || String.eqb (mode env img) "P")%bool
         then convert_RGB env img else inr img) (fun img =>
  save_JPEG env (result_image_quality self) img)).

Definition _download_photo_to_base64 (env : Env) (self : t) (url : value)
  : result pystr :=
  rbind (session_get env url) (fun response =>
  if negb (status response =? 200) then inr []
  else
    rbind (read response) (fun content =>
    rbind (compress_image env self content) (fun compressed_bytes =>
    inr (b64encode env compressed_bytes)))).

(** [process_item]: the item is updated in place and returned; when an
    exception leaves the method no field has been assigned. *)
Definition process_item (env : Env) (self : t) (item : Item) : result Item :=
  if value_truthy (item_get item "header_photo_url") then
    match _download_photo_to_base64 env self (item_get item "header_photo_url") with
    | inl InvalidUrlClientError =>
        inr (<[ "header_photo_base64" := VNone ]>
             (<[ "header_photo_url" := VNone ]> item))
    | inl e => inl e
    | inr photo_base64 =>
        inr (<[ "header_photo_base64" := VStr photo_base64 ]> item)
    end
  else inr (<[ "header_photo_base64" := VNone ]> item).

End PhotoDownloaderPipeline.

(** ** Storage sink: [MongoPipeline] *)

Module MongoPipeline.

Definition Doc : Type := gmap string value.

(** The collection, as the documents it holds in insertion order.  It has
    the default unique index on [_id] and the unique index on [source_url]
    that [open_spider] creates.  Field values of [source_url] are taken to
    be scalars (strings or null), as [parse_article] produces them. *)
Definition Collection : Type := list Doc.

(** Key of a document in an index on [field]: a missing field is indexed
    as null. *)
Definition index_key (field : string) (d : Doc) : value :=
  default VNone (d !! field).

Definition has_key (field : string) (v : value) (d : Doc) : bool :=
  bool_decide (index_key field d = v).

(** Would adding [d] break one of the two unique indexes? *)
Definition violates_unique (c : Collection) (d : Doc) : bool :=
  existsb (has_key "_id" (index_key "_id" d)) c
  || existsb (has_key "source_url" (index_key "source_url" d)) c.

(** [collection.insert_one(doc)].  pymongo first adds a fresh [ObjectId]
    under [_id] to the caller's dictionary when it has none (the dictionary
    is mutated, and stays so when the insert fails), then sends it; the
    server refuses it with [DuplicateKeyError] on a unique-index conflict.
    Returns the dictionary as mutated, the outcome and the collection. *)
Definition insert_one (oid : N) (c : Collection) (doc : Doc)
  : Doc * result unit * Collection :=
  let doc := match doc !! "_id" with
             | Some _ => doc
             | None => <[ "_id" := VObjectId oid ]> doc
             end in
  if violates_unique c doc then (doc, inl DuplicateKeyError, c)
  else (doc, inr tt, c ++ [doc]).

(** The update of one matched document by [{"$set": fields}]: the fields
    given overwrite, every other field of the document stays. *)
Definition apply_set (fields d : Doc) : Doc := fields ∪ d.

(** Replace the first document selected by [{"source_url": v}] with its
    [$set] update.  The server rejects an update that would change [_id]
    ([WriteError], immutable field) and one that would break a unique
    index.  [None]: no document matched. *)
Fixpoint update_first (v : value) (fields : Doc) (before c : Collection)
  : option (result Collection) :=
  match c with
  | [] => None
  | d :: rest =>
      if has_key "source_url" v d then
        let d' := apply_set fields d in
        if negb (bool_decide (index_key "_id" d' = index_key "_id" d))
        then Some (inl WriteError)
        else if existsb (has_key "source_url" (index_key "source_url" d'))
                        (before ++ rest)
        then Some (inl DuplicateKeyError)
        else Some (inr (before ++ d' :: rest))
      else update_first v fields (before ++ [d]) rest
  end.

(** [collection.update_one({"source_url": v}, {"$set": fields}, upsert=True)];
    [oid] is the [ObjectId] the server gives an upserted document that has
    no [_id]. *)
Definition update_one_set_upsert (oid : N) (c : Collection)
           (v : value) (fields : Doc) : result unit * Collection :=
  match update_first v fields [] c with
  | Some (inl e) => (inl e, c)
  | Some (inr c') => (inr tt, c')
  | None =>
      let d := apply_set fields {[ "source_url" := v ]} in
      let d := match d !! "_id" with
               | Some _ => d
               | None => <[ "_id" := VObjectId oid ]> d
               end in
      if violates_unique c d then (inl DuplicateKeyError, c)
      else (inr tt, c ++ [d])
  end.

(** [doc.setdefault(k, None)] *)
Definition setdefault (k : string) (v : value) (doc : Doc) : Doc :=
  match doc !! k with
  | Some _ => doc
  | None => <[ k := v ]> doc
  end.

(** The dictionary [process_item] builds before it writes: [dict(item)], the
    two optional fields defaulted to [None], the timestamp stamped. *)
Definition make_doc (now : pystr) (item : Item) : Doc :=
  <[ "parsed_at_utc" := VStr now ]>
    (setdefault "header_photo_base64" VNone
       (setdefault "header_photo_url" VNone item)).

(** [process_item].  [now] is [datetime.now(timezone.utc).isoformat()];
    [oid] and [oid'] are the object identifiers drawn by the client and,
    for an upsert that inserts, by the server. *)
Definition process_item (now : pystr) (oid oid' : N)
           (c : Collection) (item : Item) : result Item * Collection :=
  let doc := make_doc now item in
  match insert_one oid c doc with
  | (_, inr _, c') => (inr item, c')
  | (doc, inl DuplicateKeyError, c') =>
      match doc !! "source_url" with
      | None => (inl (KeyError "source_url"), c')
      | Some v =>
          match update_one_set_upsert oid' c' v doc with
          | (inl e, c'') => (inl e, c'')
          | (inr _, c'') => (inr item, c'')
          end
      end
  | (_, inl e, c') => (inl e, c')
  end.

End MongoPipeline.

(** ** Pagination harvester: [KpArticlesSpider.parse_list] *)

Module KpArticlesSpider.

(** *** The rendered session *)

(** The calls [parse_list] makes on the Playwright page, as logged; a call
    of [eval_on_selector_all] is logged with its answer. *)
Inductive call : Type :=
  | wait_for_selector (sel : string)
  | eval_on_selector_all (sel : string)
      (answer : result (option (list (option pystr))))
  | locator_count (sel : string)
  | locator_click (sel : string)
  | locator_scroll_into_view_if_needed (sel : string)
  | keyboard_press (key : string)
  | evaluate_scrollTo
  | wait_for_function (prev : Z)
  | wait_for_timeout (ms : Z)
  | close.

(** A page is a state with one transition per call; every call may raise.
    [page_hrefs] is [eval_on_selector_all(sel, "els => els.map(e => e.href)")]. *)
Class Page (P : Type) : Type := {
  page_unit : call -> P -> result unit * P;
  page_count : string -> P -> result Z * P;
  page_hrefs : string -> P -> result (option (list (option pystr))) * P
}.

Section Harvester.

Context {P : Type} `{Page P}.

(** The world of one traversal: the page and the log of calls made. *)
Definition World : Type := (P * list call)%type.

(** State and exceptions threaded through the coroutine. *)
Definition M (A : Type) : Type := World -> result A * World.

Definition ret {A : Type} (a : A) : M A := fun w => (inr a, w).

Definition bind {A B : Type} (m : M A) (k : A -> M B) : M B :=
  fun w =>
    match m w with
    | (inl e, w') => (inl e, w')
    | (inr a, w') => k a w'
    end.

(** [try: m  except Exception: h] *)
Definition try_except {A : Type} (m : M A) (h : M A) : M A :=
  fun w =>
    match m w with
    | (inl _, w') => h w'
    | (inr a, w') => (inr a, w')
    end.

Notation "x <- m ;; k" := (bind m (fun x => k))
  (at level 100, m at next level, right associativity).
Notation "m ;;; k" := (bind m (fun _ => k))
  (at level 100, right associativity).

Definition do_unit (c : call) : M unit :=
  fun w => let '(r, p) := page_unit c (fst w) in (r, (p, snd w ++ [c])).

Definition do_count (sel : string) : M Z :=
  fun w => let '(r, p) := page_count sel (fst w) in
           (r, (p, snd w ++ [locator_count sel])).

Definition do_hrefs (sel : string) : M (option (list (option pystr))) :=
  fun w => let '(r, p) := page_hrefs sel (fst w) in
           (r, (p, snd w ++ [eval_on_selector_all sel r])).

(** [try: await c  except Exception: pass] *)
Definition best_effort (c : call) : M unit :=
  try_except (do_unit c) (ret tt).

(** *** Selectors *)

Definition SEL_SHOW_MORE : string :=
  "button:has-text('Показать еще'), button:has-text('Показать ещё')".
Definition SEL_NEWS : string := "a[href*='/online/news/']".

Definition overlay_candidates : list string :=
  [ "button:has-text('Принять')";
    "button:has-text('Согласен')";
    "button:has-text('Согласиться')";
    "button:has-text('ОК')" ]%string.

(** *** Helpers of [parse_list] *)

(** [normalize_url], line 45: [(u or "").split("?")[0].strip()] *)
Definition normalize_url (u : option pystr) : pystr :=
  strip (before_query (or_empty u)).

(** The loop of [collect_urls_from_dom], lines 76-81. *)
Fixpoint normalize_all (hrefs : list (option pystr)) : list pystr :=
  match hrefs with
  | [] => []
  | u :: rest =>
      let u := normalize_url u in
      if truthy (Some u) then u :: normalize_all rest else normalize_all rest
  end.

Definition collect_urls_from_dom : M (list pystr) :=
  hrefs <- do_hrefs SEL_NEWS ;;
  ret (normalize_all (default [] hrefs)).

(** The [for sel in candidates] loop of [try_dismiss_overlays]: the first
    candidate that is present and clicked without error ends the loop; an
    error on a candidate moves on to the next one. *)
Fixpoint dismiss_candidates (cands : list string) : M unit :=
  match cands with
  | [] => ret tt
  | sel :: rest =>
      clicked <- try_except
                   (n <- do_count sel ;;
                    if 0 <? n
                    then do_unit (locator_click sel) ;;; ret true
                    else ret false)
                   (ret false) ;;
      if clicked : bool then ret tt else dismiss_candidates rest
  end.

Definition try_dismiss_overlays : M unit :=
  best_effort (keyboard_press "Escape") ;;;
  dismiss_candidates overlay_candidates.

(** [click_show_more_and_wait], lines 83-122. *)
Definition click_show_more_and_wait (prev_anchor_count : Z) : M bool :=
  n <- do_count SEL_SHOW_MORE ;;
  if n =? 0 then ret false else
  try_dismiss_overlays ;;;
  scrolled <- try_except
                (do_unit (locator_scroll_into_view_if_needed SEL_SHOW_MORE) ;;; ret true)
                (try_except (do_unit evaluate_scrollTo ;;; ret true) (ret false)) ;;
  if negb scrolled then ret false else
  clicked <- try_except (do_unit (locator_click SEL_SHOW_MORE) ;;; ret true)
                        (ret false) ;;
  if negb clicked then ret false else
  best_effort (wait_for_function prev_anchor_count) ;;;
  best_effort (wait_for_timeout 600) ;;;
  ret true.

(** *** Harvest state *)

Record HarvestState : Type := {
  seen : gset pystr;
  ordered_urls : list pystr;
  clicks : Z;
  stalls : Z
}.

(** [len(l)] *)
Definition len {A : Type} (l : list A) : Z := Z.of_nat (length l).

(** The spider object: the limit given at construction and the two class
    constants. *)
Record Spider : Type := {
  posts_limit : Z;
  MAX_SHOW_MORE_CLICKS : Z;
  STALL_LIMIT : Z
}.

Definition POSTS_LIMIT : Z := 1000.

(** [__init__(limit)] *)
Definition init (limit : option Z) : Spider :=
  {| posts_limit := default POSTS_LIMIT limit;
     MAX_SHOW_MORE_CLICKS := 10000;
     STALL_LIMIT := 10 |}.

(** Body of the two [for u in ...] loops (lines 135-139 and 156-160): one
    URL is looked at. *)
Definition visit (u : pystr) (so : gset pystr * list pystr)
  : gset pystr * list pystr :=
  if decide (u ∈ so.1) then so else ({[u]} ∪ so.1, so.2 ++ [u]).

(** The [for] loop with its [break] once the limit is reached. *)
Fixpoint add_new (limit : Z) (urls : list pystr)
         (so : gset pystr * list pystr) : gset pystr * list pystr :=
  match urls with
  | [] => so
  | u :: rest =>
      if decide (u ∈ so.1) then add_new limit rest so
      else
        let so' := visit u so in
        if limit <=? len so'.2 then so' else add_new limit rest so'
  end.

(** The condition of the [while], line 144. *)
Definition loop_cond (self : Spider) (st : HarvestState) : bool :=
  (len (ordered_urls st) <? posts_limit self)
  && (clicks st <? MAX_SHOW_MORE_CLICKS self)
  && (stalls st <? STALL_LIMIT self).

(** One pass through the body of the [while], lines 145-165; [None] is the
    [break] of line 150. *)
Definition round (self : Spider) (st : HarvestState) : M (option HarvestState) :=
  let prev_unique := len (ordered_urls st) in
  prev_anchor_count <- do_count SEL_NEWS ;;
  ok <- click_show_more_and_wait prev_anchor_count ;;
  if negb ok then ret None else
  let clicks' := clicks st + 1 in
  current <- collect_urls_from_dom ;;
  let so := add_new (posts_limit self) current (seen st, ordered_urls st) in
  let stalls' := if len so.2 =? prev_unique then stalls st + 1 else 0 in
  ret (Some {| seen := so.1; ordered_urls := so.2;
               clicks := clicks'; stalls := stalls' |}).

(** How the [while] was left. *)
Inductive loop_exit : Type :=
  | CondFalse     (* the condition of line 144 was false *)
  | Break         (* [click_show_more_and_wait] returned [False] *)
  | Running.      (* not left yet: the state after [fuel] passes *)

(** The [while] loop, followed for at most [fuel] passes. *)
Fixpoint while_loop (self : Spider) (fuel : nat) (st : HarvestState)
  : M (HarvestState * loop_exit) :=
  match fuel with
  | O => ret (st, Running)
  | S fuel =>
      if loop_cond self st then
        r <- round self st ;;
        match r with
        | None => ret (st, Break)
        | Some st' => while_loop self fuel st'
        end
      else ret (st, CondFalse)
  end.

(** [l[:n]] *)
Definition slice_to {A : Type} (l : list A) (n : Z) : list A :=
  if 0 <=? n then firstn (Z.to_nat n) l
  else firstn (Z.to_nat (len l + n)) l.

(** [s.startswith(prefix)] and [sub in s]. *)
Fixpoint startswith (prefix s : pystr) : bool :=
  match prefix, s with
  | [], _ => true
  | _ :: _, [] => false
  | a :: prefix, b :: s => N.eqb a b && startswith prefix s
  end.

Fixpoint contains (sub s : pystr) : bool :=
  startswith sub s ||
  match s with
  | [] => false
  | _ :: r => contains sub r
  end.

(** [scrapy.Request(url, callback=self.parse_article, dont_filter=True)].
    The constructor raises [ValueError] ("Missing scheme in request url")
    for a URL that holds no ["://"] and starts with neither ["about:"] nor
    ["data:"]; a request is kept here as the URL it is for. *)
Definition has_scheme (url : pystr) : bool :=
  contains (py "://") url || startswith (py "about:") url
  || startswith (py "data:") url.

Definition Request (url : pystr) : result pystr :=
  if has_scheme url then inr url else inl (OtherException "ValueError").

(** The [for url in ...: yield scrapy.Request(url, ...)] of lines 178-179:
    the requests yielded when every one of them can be built, the error of
    the first that cannot otherwise (the requests yielded before it are then
    not part of the result). *)
Fixpoint yield_requests (urls : list pystr) : result (list pystr) :=
  match urls with
  | [] => inr []
  | url :: rest =>
      rbind (Request url) (fun request =>
      rbind (yield_requests rest) (fun requests =>
      inr (request :: requests)))
  end.

(** A computation that does not touch the session. *)
Definition pure_result {A : Type} (r : result A) : M A := fun w => (r, w).

(** Passes that are always enough: every pass that does not leave the loop
    adds one click, and the loop stops at [MAX_SHOW_MORE_CLICKS]. *)
Definition enough_fuel (self : Spider) : nat :=
  S (Z.to_nat (MAX_SHOW_MORE_CLICKS self)).

(** Lines 124-165: everything up to the end of the [while]. *)
Definition harvest (self : Spider) (fuel : nat)
  : M (HarvestState * loop_exit) :=
  best_effort (wait_for_selector SEL_SHOW_MORE) ;;;
  urls <- collect_urls_from_dom ;;
  let so := add_new (posts_limit self) urls (∅, []) in
  while_loop self fuel
    {| seen := so.1; ordered_urls := so.2; clicks := 0; stalls := 0 |}.

(** [parse_list]: the URLs of the requests it yields, lines 124-179;
    [None] when the [while] is still running after [fuel] passes. *)
Definition parse_list_fuel (self : Spider) (fuel : nat)
  : M (option (list pystr)) :=
  r <- harvest self fuel ;;
  match r with
  | (_, Running) => ret None
  | (st, _) =>
      best_effort close ;;;
      requests <- pure_result
                    (yield_requests (slice_to (ordered_urls st) (posts_limit self))) ;;
      ret (Some requests)
  end.

Definition parse_list (self : Spider) : M (option (list pystr)) :=
  parse_list_fuel self (enough_fuel self).

(** The URLs the session has shown so far: the links returned by the
    successful calls of [eval_on_selector_all], normalised, in the order of
    the calls and, within a call, in DOM order. *)
Fixpoint observed (log : list call) : list pystr :=
  match log with
  | [] => []
  | eval_on_selector_all _ (inr hrefs) :: rest =>
      normalize_all (default [] hrefs) ++ observed rest
  | _ :: rest => observed rest
  end.

(** Has the session been closed (was [page.close()] called)? *)
Definition closed (log : list call) : bool :=
  existsb (fun c => match c with close => true | _ => false end) log.

End Harvester.

(** *** A scripted page

    A page that answers [eval_on_selector_all] from a script, one entry per
    call (and with no link once the script is exhausted), always shows the
    reveal-more control and no overlay, and accepts every other call. *)
Definition Script : Type := list (result (list pystr)).

Global Instance Script_Page : Page Script := {|
  page_unit := fun _ p => (inr tt, p);
  page_count := fun sel p =>
    (inr (if String.eqb sel SEL_SHOW_MORE then 1 else 0), p);
  page_hrefs := fun _ p =>
    match p with
    | [] => (inr (Some []), [])
    | inl e :: rest => (inl e, rest)
    | inr hrefs :: rest => (inr (Some (List.map Some hrefs)), rest)
    end
|}.

End KpArticlesSpider.

(** * Properties *)

(** ** Whitespace normalisation: shape of the result *)

Section CleanText.

(** A string in which whitespace occurs only as isolated single spaces. *)
Inductive collapsed : pystr -> Prop :=
  | collapsed_nil : collapsed []
  | collapsed_one c :
      (isspace c = true -> c = SPACE) -> collapsed [c]
  | collapsed_cons c d r :
      (isspace c = true -> c = SPACE) ->
      (isspace c = true -> isspace d = false) ->
      collapsed (d :: r) ->
      collapsed (c :: d :: r).

Lemma isspace_SPACE : isspace SPACE = true.
Proof. reflexivity. Qed.

Lemma collapsed_tail c r : collapsed (c :: r) -> collapsed r.
Proof. inversion 1; subst; [constructor | assumption]. Qed.

Lemma re_sub_ws_head_in_run s :
  match re_sub_ws true s with
  | [] => True
  | c :: _ => isspace c = false
  end.
Proof.
  induction s as [|c r IH]; simpl; [exact I|].
  destruct (isspace c) eqn:E; [exact IH | exact E].
Qed.

Lemma re_sub_ws_collapsed b s : collapsed (re_sub_ws b s).
Proof.
  revert b; induction s as [|c r IH]; intros b; simpl; [constructor|].
  destruct (isspace c) eqn:E.
  - destruct b; [apply IH|].
    pose proof (re_sub_ws_head_in_run r) as Hh.
    pose proof (IH true) as Hc.
    destruct (re_sub_ws true r) as [|d r'].
    + constructor; reflexivity.
    + constructor; [reflexivity | intros _; exact Hh | exact Hc].
  - pose proof (IH false) as Hc.
    destruct (re_sub_ws false r) as [|d r'].
    + constructor. rewrite E; discriminate.
    + constructor; try (rewrite E; discriminate). exact Hc.
Qed.

Lemma re_sub_ws_fixed s : collapsed s -> re_sub_ws false s = s.
Proof.
  induction 1 as [|c Hc|c d r Hc Hd Hr IH]; simpl; [reflexivity| |].
  - destruct (isspace c) eqn:E; [rewrite Hc|]; reflexivity.
  - simpl in IH.
    destruct (isspace c) eqn:E.
    + rewrite (Hc eq_refl). rewrite (Hd eq_refl) in *.
      f_equal. f_equal.
      destruct r as [|e r']; [reflexivity|].
      simpl. simpl in IH. congruence.
    + f_equal. exact IH.
Qed.

Lemma lstrip_collapsed s : collapsed s -> collapsed (lstrip s).
Proof.
  induction s as [|c r IH]; intros H; simpl; [constructor|].
  destruct (isspace c); [apply IH; eapply collapsed_tail; eassumption | exact H].
Qed.

Lemma rstrip_collapsed s : collapsed s -> collapsed (rstrip s).
Proof.
  induction 1 as [|c Hc|c d r Hc Hd Hr IH]; simpl; [constructor| |].
  - destruct (isspace c) eqn:E; constructor. rewrite E; discriminate.
  - simpl in IH.
    destruct (rstrip r) as [|e r'] eqn:Er.
    + destruct (isspace d) eqn:Ed.
      * destruct (isspace c) eqn:Ec; [constructor|].
        constructor. rewrite Ec; discriminate.
      * constructor; [exact Hc | intros _; exact Ed | exact IH].
    + constructor; [exact Hc | exact Hd | exact IH].
Qed.

Lemma lstrip_head s :
  match lstrip s with
  | [] => True
  | c :: _ => isspace c = false
  end.
Proof.
  induction s as [|c r IH]; simpl; [exact I|].
  destruct (isspace c) eqn:E; [exact IH | exact E].
Qed.

Lemma lstrip_fixed c r : isspace c = false -> lstrip (c :: r) = c :: r.
Proof. intros E; simpl; rewrite E; reflexivity. Qed.

Lemma rstrip_cons c r :
  rstrip (c :: r) =
  match rstrip r with
  | [] => if isspace c then [] else [c]
  | r' => c :: r'
  end.
Proof. reflexivity. Qed.

Lemma rstrip_idem s : rstrip (rstrip s) = rstrip s.
Proof.
  induction s as [|c r IH]; [reflexivity|].
  rewrite rstrip_cons.
  destruct (rstrip r) as [|e r'] eqn:Er.
  - destruct (isspace c) eqn:E; [reflexivity|].
    rewrite rstrip_cons. simpl. rewrite E. reflexivity.
  - rewrite rstrip_cons, IH. reflexivity.
Qed.

Lemma rstrip_head c r :
  isspace c = false -> exists r', rstrip (c :: r) = c :: r'.
Proof.
  intros E; simpl. destruct (rstrip r); [rewrite E|]; eauto.
Qed.

Lemma strip_idem s : strip (strip s) = strip s.
Proof.
  unfold strip.
  pose proof (lstrip_head s) as Hh.
  destruct (lstrip s) as [|c r] eqn:El; [reflexivity|].
  destruct (rstrip_head c r Hh) as [r' Hr'].
  rewrite Hr'. rewrite (lstrip_fixed _ _ Hh). rewrite <- Hr'.
  apply rstrip_idem.
Qed.

Lemma strip_collapsed s : collapsed s -> collapsed (strip s).
Proof. intros H; apply rstrip_collapsed, lstrip_collapsed, H. Qed.

Lemma clean_text_collapsed s : collapsed (clean_text s).
Proof. apply strip_collapsed, re_sub_ws_collapsed. Qed.

End CleanText.

(** C10. Whitespace normalisation is idempotent: cleaning the cleaned text of
    [s] gives the cleaned text of [s], for every argument [clean_text] accepts
    (a string or [None]). *)
Theorem clean_text_idempotent (s : option pystr) :
  clean_text (Some (clean_text s)) = clean_text s.
Proof.
  unfold clean_text at 1. simpl or_empty.
  rewrite (re_sub_ws_fixed _ (clean_text_collapsed s)).
  unfold clean_text. apply strip_idem.
Qed.

(** ** [dict.fromkeys]: first occurrences, in order *)

Section DictFromkeys.

Lemma dict_fromkeys_snoc us u :
  dict_fromkeys (us ++ [u]) =
  if decide (u ∈ dict_fromkeys us) then dict_fromkeys us
  else dict_fromkeys us ++ [u].
Proof. unfold dict_fromkeys. rewrite fold_left_app. reflexivity. Qed.

Lemma elem_of_dict_fromkeys us u : u ∈ dict_fromkeys us <-> u ∈ us.
Proof.
  induction us as [|v us IH] using rev_ind.
  - reflexivity.
  - rewrite dict_fromkeys_snoc.
    destruct (decide (v ∈ dict_fromkeys us)) as [Hin|Hnin].
    + rewrite elem_of_app, list_elem_of_singleton, IH.
      split; [tauto|]. intros [? | ->]; [assumption | apply IH, Hin].
    + rewrite !elem_of_app, IH. reflexivity.
Qed.

Lemma NoDup_dict_fromkeys us : NoDup (dict_fromkeys us).
Proof.
  induction us as [|v us IH] using rev_ind.
  - constructor.
  - rewrite dict_fromkeys_snoc.
    destruct (decide (v ∈ dict_fromkeys us)) as [Hin|Hnin]; [exact IH|].
    apply NoDup_app. split; [exact IH|]. split.
    + intros x Hx Hx'. apply list_elem_of_singleton in Hx'. subst. tauto.
    + apply NoDup_singleton.
Qed.

Lemma dict_fromkeys_prefix us vs :
  dict_fromkeys us `prefix_of` dict_fromkeys (us ++ vs).
Proof.
  induction vs as [|v vs IH] using rev_ind.
  - rewrite app_nil_r. reflexivity.
  - rewrite app_assoc, dict_fromkeys_snoc.
    destruct (decide (v ∈ dict_fromkeys (us ++ vs))); [exact IH|].
    etransitivity; [exact IH|]. apply prefix_app_r. reflexivity.
Qed.

Lemma dict_fromkeys_fixed l : NoDup l -> dict_fromkeys l = l.
Proof.
  induction l as [|v l IH] using rev_ind; [reflexivity|].
  intros Hnd. apply NoDup_app in Hnd as (Hl & Hdisj & _).
  rewrite dict_fromkeys_snoc, (IH Hl).
  destruct (decide (v ∈ l)) as [Hin|Hnin]; [|reflexivity].
  exfalso. apply (Hdisj v Hin). apply list_elem_of_singleton. reflexivity.
Qed.

End DictFromkeys.

(** ** The harvester *)

Section HarvesterFacts.

Import KpArticlesSpider.

Context {P : Type} `{Page P}.

(** *** The log only grows, and only [collect_urls_from_dom] observes links *)

Lemma observed_app (l1 l2 : list call) :
  observed (l1 ++ l2) = observed l1 ++ observed l2.
Proof.
  induction l1 as [|c l1 IH]; [reflexivity|].
  destruct c as [| sel [e|hrefs] | | | | | | | |]; simpl; rewrite ?IH; try reflexivity.
  rewrite app_assoc. reflexivity.
Qed.

(** A computation that may call the page but never reads the links. *)
Definition quiet {A : Type} (m : @M P A) : Prop :=
  forall w r w', m w = (r, w') ->
    exists l, snd w' = snd w ++ l /\ observed l = [].

Lemma quiet_ret {A : Type} (a : A) : quiet (@ret P A a).
Proof.
  intros w r w' [= <- <-]. exists []. rewrite app_nil_r. split; reflexivity.
Qed.

Lemma quiet_bind {A B : Type} (m : @M P A) (k : A -> @M P B) :
  quiet m -> (forall a, quiet (k a)) -> quiet (bind m k).
Proof.
  intros Hm Hk w r w' Hrun. unfold bind in Hrun.
  destruct (m w) as [[e|a] w1] eqn:Em.
  - injection Hrun as <- <-. destruct (Hm _ _ _ Em) as (l & Hl & Ho).
    exists l. split; assumption.
  - destruct (Hm _ _ _ Em) as (l1 & Hl1 & Ho1).
    destruct (Hk a _ _ _ Hrun) as (l2 & Hl2 & Ho2).
    exists (l1 ++ l2). rewrite Hl2, Hl1, app_assoc, observed_app, Ho1, Ho2.
    split; reflexivity.
Qed.

Lemma quiet_try_except {A : Type} (m h : @M P A) :
  quiet m -> quiet h -> quiet (try_except m h).
Proof.
  intros Hm Hh w r w' Hrun. unfold try_except in Hrun.
  destruct (m w) as [[e|a] w1] eqn:Em.
  - destruct (Hm _ _ _ Em) as (l1 & Hl1 & Ho1).
    destruct (Hh _ _ _ Hrun) as (l2 & Hl2 & Ho2).
    exists (l1 ++ l2). rewrite Hl2, Hl1, app_assoc, observed_app, Ho1, Ho2.
    split; reflexivity.
  - injection Hrun as <- <-. destruct (Hm _ _ _ Em) as (l & Hl & Ho).
    exists l. split; assumption.
Qed.

Lemma quiet_do_unit (c : call) :
  (forall sel a, c <> eval_on_selector_all sel a) -> quiet (do_unit c).
Proof.
  intros Hc w r w' Hrun. unfold do_unit in Hrun.
  destruct (page_unit c w.1) as [r1 p1]. injection Hrun as <- <-.
  exists [c]. split; [reflexivity|].
  destruct c; try reflexivity. exfalso. eapply Hc. reflexivity.
Qed.

Lemma quiet_do_count (sel : string) : quiet (do_count sel).
Proof.
  intros w r w' Hrun. unfold do_count in Hrun.
  destruct (page_count sel w.1) as [r1 p1]. injection Hrun as <- <-.
  exists [locator_count sel]. split; reflexivity.
Qed.

Lemma quiet_best_effort (c : call) :
  (forall sel a, c <> eval_on_selector_all sel a) -> quiet (best_effort c).
Proof.
  intros Hc. apply quiet_try_except; [apply quiet_do_unit, Hc | apply quiet_ret].
Qed.

Ltac quiet_step :=
  first
    [ apply quiet_ret
    | apply quiet_do_count
    | apply quiet_best_effort; discriminate
    | apply quiet_do_unit; discriminate
    | apply quiet_try_except
    | apply quiet_bind; [|intros ?] ].

Lemma quiet_dismiss_candidates cands : quiet (dismiss_candidates cands).
Proof.
  induction cands as [|sel rest IH]; simpl; [apply quiet_ret|].
  apply quiet_bind.
  - repeat quiet_step. destruct (0 <? a); repeat quiet_step.
  - intros [|]; [apply quiet_ret | exact IH].
Qed.

Lemma quiet_try_dismiss_overlays : quiet try_dismiss_overlays.
Proof.
  unfold try_dismiss_overlays. apply quiet_bind.
  - apply quiet_best_effort. discriminate.
  - intros _. apply quiet_dismiss_candidates.
Qed.

Lemma quiet_click_show_more_and_wait prev :
  quiet (click_show_more_and_wait prev).
Proof.
  unfold click_show_more_and_wait.
  apply quiet_bind; [apply quiet_do_count|]. intros n.
  destruct (n =? 0); [apply quiet_ret|].
  apply quiet_bind; [apply quiet_try_dismiss_overlays|]. intros _.
  apply quiet_bind; [repeat quiet_step|]. intros scrolled.
  destruct (negb scrolled); [apply quiet_ret|].
  apply quiet_bind; [repeat quiet_step|]. intros clicked.
  destruct (negb clicked); [apply quiet_ret|].
  repeat quiet_step.
Qed.

Lemma collect_urls_from_dom_observed w r w' :
  collect_urls_from_dom w = (r, w') ->
  observed (snd w') = observed (snd w) ++
                      match r with inr urls => urls | inl _ => [] end.
Proof.
  unfold collect_urls_from_dom, bind, do_hrefs, ret. intros Hrun.
  destruct (page_hrefs SEL_NEWS w.1) as [[e|hrefs] p1];
    injection Hrun as <- <-; simpl; rewrite observed_app; simpl;
    rewrite ?app_nil_r; reflexivity.
Qed.

(** *** The two [for] loops *)

Lemma add_new_extends limit urls so :
  exists news, (add_new limit urls so).2 = so.2 ++ news.
Proof.
  revert so; induction urls as [|u rest IH]; intros so; simpl.
  - exists []. rewrite app_nil_r. reflexivity.
  - destruct (decide (u ∈ so.1)) as [Hin|Hnin]; [apply IH|].
    unfold visit. destruct (decide (u ∈ so.1)) as [|_]; [tauto|]. simpl.
    destruct (limit <=? len (so.2 ++ [u])).
    + exists [u]. reflexivity.
    + destruct (IH ({[u]} ∪ so.1, so.2 ++ [u])) as (news & Hn).
      exists (u :: news). rewrite Hn. simpl. rewrite <- app_assoc. reflexivity.
Qed.

(** After the URLs [us] have been looked at, [so] holds their first
    occurrences, in order. *)
Definition holds_first_occurrences (us : list pystr)
           (so : gset pystr * list pystr) : Prop :=
  so.1 = list_to_set so.2 /\ so.2 = dict_fromkeys us.

Lemma visit_first_occurrences us u so :
  holds_first_occurrences us so ->
  holds_first_occurrences (us ++ [u]) (visit u so).
Proof.
  intros [Hs Ho]. unfold visit, holds_first_occurrences.
  rewrite dict_fromkeys_snoc.
  destruct (decide (u ∈ so.1)) as [Hin|Hnin].
  - rewrite Hs, elem_of_list_to_set, Ho in Hin.
    destruct (decide (u ∈ dict_fromkeys us)); [|tauto]. split; assumption.
  - rewrite Hs, elem_of_list_to_set, Ho in Hnin.
    destruct (decide (u ∈ dict_fromkeys us)); [tauto|]. simpl. split.
    + rewrite list_to_set_app_L, <- Hs. simpl.
      rewrite (right_id_L ∅ (∪)). apply (comm_L (∪)).
    + rewrite Ho. reflexivity.
Qed.

Lemma add_new_first_occurrences limit urls us so :
  holds_first_occurrences us so ->
  let so' := add_new limit urls so in
  so'.1 = list_to_set so'.2 /\
  so'.2 `prefix_of` dict_fromkeys (us ++ urls) /\
  (len so'.2 < limit -> so'.2 = dict_fromkeys (us ++ urls)).
Proof.
  revert us so; induction urls as [|u rest IH]; intros us so Hso; simpl.
  - rewrite app_nil_r. destruct Hso as [Hs Ho]. rewrite Ho at 2 3.
    split; [exact Hs|]. split; [reflexivity|]. intros _. rewrite <- Ho. reflexivity.
  - pose proof (visit_first_occurrences us u so Hso) as Hv.
    replace (us ++ u :: rest) with ((us ++ [u]) ++ rest)
      by (rewrite <- app_assoc; reflexivity).
    destruct (decide (u ∈ so.1)) as [Hin|Hnin].
    + unfold visit in Hv. destruct (decide (u ∈ so.1)); [|tauto].
      apply IH, Hv.
    + destruct (limit <=? len (visit u so).2) eqn:El.
      * destruct Hv as [Hs Ho]. split; [exact Hs|]. split.
        -- rewrite Ho. apply dict_fromkeys_prefix.
        -- apply Z.leb_le in El. lia.
      * apply IH, Hv.
Qed.

(** *** The state of the harvest against the links observed *)

Definition harvest_inv (limit : Z) (st : HarvestState) (log : list call) : Prop :=
  seen st = list_to_set (ordered_urls st) /\
  ordered_urls st `prefix_of` dict_fromkeys (observed log) /\
  (len (ordered_urls st) < limit ->
   ordered_urls st = dict_fromkeys (observed log)).

Lemma round_spec self st w r w' :
  round self st w = (inr r, w') ->
  match r with
  | None => observed (snd w') = observed (snd w)
  | Some st' =>
      clicks st' = clicks st + 1 /\
      (exists news, ordered_urls st' = ordered_urls st ++ news /\
                    stalls st' = match news with
                                 | [] => stalls st + 1
                                 | _ => 0
                                 end) /\
      (ordered_urls st = dict_fromkeys (observed (snd w)) ->
       seen st = list_to_set (ordered_urls st) ->
       harvest_inv (posts_limit self) st' (snd w'))
  end.
Proof.
  unfold round. unfold bind at 1. intros Hrun.
  destruct (do_count SEL_NEWS w) as [[e|prev] w1] eqn:E1; [discriminate|].
  destruct (quiet_do_count _ _ _ _ E1) as (l1 & Hl1 & Ho1).
  unfold bind at 1 in Hrun.
  destruct (click_show_more_and_wait prev w1) as [[e|ok] w2] eqn:E2; [discriminate|].
  destruct (quiet_click_show_more_and_wait _ _ _ _ E2) as (l2 & Hl2 & Ho2).
  assert (Hobs2 : observed (snd w2) = observed (snd w))
    by (rewrite Hl2, Hl1, !observed_app, Ho1, Ho2, !app_nil_r; reflexivity).
  destruct ok; simpl in Hrun.
  2:{ injection Hrun as <- <-. exact Hobs2. }
  unfold bind at 1 in Hrun.
  destruct (collect_urls_from_dom w2) as [[e|current] w3] eqn:E3; [discriminate|].
  apply collect_urls_from_dom_observed in E3. rewrite Hobs2 in E3.
  injection Hrun as <- <-. simpl.
  split; [reflexivity|]. split.
  - destruct (add_new_extends (posts_limit self) current (seen st, ordered_urls st))
      as (news & Hn).
    exists news. split; [exact Hn|]. rewrite Hn. simpl.
    unfold len. rewrite length_app.
    destruct news as [|n news]; simpl.
    + rewrite Nat.add_0_r, Z.eqb_refl. reflexivity.
    + destruct (Z.eqb_spec (Z.of_nat (length (ordered_urls st) + S (length news)))
                           (Z.of_nat (length (ordered_urls st)))); [lia|reflexivity].
  - intros Ho Hs. unfold harvest_inv. simpl. rewrite E3.
    apply (add_new_first_occurrences (posts_limit self) current
             (observed (snd w)) (seen st, ordered_urls st)).
    split; assumption.
Qed.

Lemma while_loop_spec self fuel st w st' ex w' :
  harvest_inv (posts_limit self) st (snd w) ->
  while_loop self fuel st w = (inr (st', ex), w') ->
  harvest_inv (posts_limit self) st' (snd w').
Proof.
  revert st w; induction fuel as [|fuel IH]; intros st w Hinv; simpl.
  - intros [= <- <- <-]. exact Hinv.
  - destruct (loop_cond self st) eqn:Ec.
    2:{ intros [= <- <- <-]. exact Hinv. }
    unfold bind. destruct (round self st w) as [[e|r] w1] eqn:Er; [discriminate|].
    pose proof (round_spec _ _ _ _ _ Er) as Hr.
    destruct Hinv as (Hs & Hp & Hfull).
    unfold loop_cond in Ec. apply andb_prop in Ec as [Ec _].
    apply andb_prop in Ec as [Ec _]. apply Z.ltb_lt in Ec.
    destruct r as [st1|].
    + intros Hrun. eapply IH; [|exact Hrun].
      destruct Hr as (_ & _ & Hr). apply Hr; [apply Hfull, Ec | exact Hs].
    + intros [= <- <- <-]. unfold harvest_inv. rewrite Hr.
      split; [exact Hs|]. split; [exact Hp | exact Hfull].
Qed.

(** The [while] is left within [MAX_SHOW_MORE_CLICKS - clicks] passes. *)
Lemma while_loop_leaves self fuel st w st' ex w' :
  (Z.to_nat (MAX_SHOW_MORE_CLICKS self - clicks st) < fuel)%nat ->
  while_loop self fuel st w = (inr (st', ex), w') ->
  ex <> Running.
Proof.
  revert st w; induction fuel as [|fuel IH]; intros st w Hfuel; simpl; [lia|].
  destruct (loop_cond self st) eqn:Ec.
  2:{ intros [= <- <- <-]. discriminate. }
  unfold bind. destruct (round self st w) as [[e|r] w1] eqn:Er; [discriminate|].
  pose proof (round_spec _ _ _ _ _ Er) as Hr.
  unfold loop_cond in Ec. apply andb_prop in Ec as [Ec _].
  apply andb_prop in Ec as [_ Ec]. apply Z.ltb_lt in Ec.
  destruct r as [st1|].
  - destruct Hr as (Hc & _). apply IH. rewrite Hc. lia.
  - intros [= <- <- <-]. discriminate.
Qed.

(** How the [while] can be left. *)
Lemma while_loop_exit self fuel st w st' ex w' :
  while_loop self fuel st w = (inr (st', ex), w') ->
  match ex with
  | CondFalse => loop_cond self st' = false
  | _ => True
  end.
Proof.
  revert st w; induction fuel as [|fuel IH]; intros st w; simpl.
  - intros [= <- <- <-]. exact I.
  - destruct (loop_cond self st) eqn:Ec.
    2:{ intros [= <- <- <-]. exact Ec. }
    unfold bind. destruct (round self st w) as [[e|[st1|]] w1]; [discriminate| |].
    + apply IH.
    + intros [= <- <- <-]. exact I.
Qed.

Lemma harvest_spec self fuel p st ex w' :
  harvest self fuel (p, []) = (inr (st, ex), w') ->
  harvest_inv (posts_limit self) st (snd w').
Proof.
  unfold harvest. unfold bind at 1.
  destruct (best_effort (wait_for_selector SEL_SHOW_MORE) (p, []))
    as [[e|[]] w1] eqn:E1; [discriminate|].
  destruct (quiet_best_effort (wait_for_selector SEL_SHOW_MORE)
              ltac:(discriminate) _ _ _ E1) as (l1 & Hl1 & Ho1).
  simpl in Hl1.
  unfold bind at 1.
  destruct (collect_urls_from_dom w1) as [[e|urls] w2] eqn:E2; [discriminate|].
  apply collect_urls_from_dom_observed in E2. rewrite Hl1, Ho1 in E2. simpl in E2.
  apply while_loop_spec. unfold harvest_inv. simpl. rewrite E2.
  apply (add_new_first_occurrences (posts_limit self) urls [] (∅, [])).
  split; reflexivity.
Qed.

End HarvesterFacts.

(** ** Claims on the harvester *)

Section HarvesterClaims.

Import KpArticlesSpider.

(** The end-to-end scenario of the specification: three links at first, three
    more after one click, one of them known already; five are asked for. *)
Definition scenario : Script :=
  [ inr [py "https://www.kp.ru/online/news/1/?from=top";
         py "https://www.kp.ru/online/news/2/";
         py "https://www.kp.ru/online/news/3/"];
    inr [py "https://www.kp.ru/online/news/3/";
         py "https://www.kp.ru/online/news/4/";
         py "https://www.kp.ru/online/news/5/"] ].

Example scenario_harvest :
  fst (parse_list (init (Some 5)) (scenario, [])) =
  inr (Some [py "https://www.kp.ru/online/news/1/";
             py "https://www.kp.ru/online/news/2/";
             py "https://www.kp.ru/online/news/3/";
             py "https://www.kp.ru/online/news/4/";
             py "https://www.kp.ru/online/news/5/"]).
Proof. vm_compute. reflexivity. Qed.

(** C5. At the head of the [while] after any number of passes, and when the
    loop is left, the URLs collected so far hold no duplicate, there are as
    many of them as elements in [seen], and they stand in discovery order:
    they are an initial part of the first occurrences of the links the
    session has shown, and all of them as long as the limit is not reached. *)
Theorem ordered_urls_no_duplicates {P : Type} `{Page P}
        (self : Spider) (fuel : nat) (p : P)
        (st : HarvestState) (ex : loop_exit) (w' : World) :
  harvest self fuel (p, []) = (inr (st, ex), w') ->
  NoDup (ordered_urls st) /\
  length (ordered_urls st) = size (seen st) /\
  ordered_urls st `prefix_of` dict_fromkeys (observed (snd w')) /\
  (len (ordered_urls st) < posts_limit self ->
   ordered_urls st = dict_fromkeys (observed (snd w'))).
Proof.
  intros Hrun. destruct (harvest_spec _ _ _ _ _ _ Hrun) as (Hs & Hp & Hfull).
  assert (Hnd : NoDup (ordered_urls st)).
  { destruct Hp as [k Hk].
    pose proof (NoDup_dict_fromkeys (observed (snd w'))) as Hd.
    rewrite Hk in Hd. apply NoDup_app in Hd. tauto. }
  split; [exact Hnd|]. split; [|split; assumption].
  rewrite Hs. symmetry. apply size_list_to_set, Hnd.
Qed.

Lemma ordered_urls_no_duplicates_witness :
  exists st ex w',
    harvest (init (Some 5)) 1 (scenario, []) = (inr (st, ex), w') /\
    NoDup (ordered_urls st) /\
    length (ordered_urls st) = size (seen st) /\
    ordered_urls st `prefix_of` dict_fromkeys (observed (snd w')) /\
    (len (ordered_urls st) < posts_limit (init (Some 5)) ->
     ordered_urls st = dict_fromkeys (observed (snd w'))).
Proof.
  destruct (harvest (init (Some 5)) 1 (scenario, [])) as [[e|[st ex]] w'] eqn:E;
    [vm_compute in E; discriminate|].
  exists st, ex, w'. split; [reflexivity|].
  exact (ordered_urls_no_duplicates (init (Some 5)) 1 scenario st ex w' E).
Defined.

Lemma harvest_exit {P : Type} `{Page P} (self : Spider) (w : World)
      (st : HarvestState) (ex : loop_exit) (w' : World) :
  harvest self (enough_fuel self) w = (inr (st, ex), w') ->
  match ex with
  | CondFalse => loop_cond self st = false
  | Break => True
  | Running => False
  end.
Proof.
  unfold harvest. unfold bind at 1.
  destruct (best_effort (wait_for_selector SEL_SHOW_MORE) w) as [[e|[]] w1];
    [discriminate|].
  unfold bind at 1.
  destruct (collect_urls_from_dom w1) as [[e|urls] w2]; [discriminate|].
  intros Hrun.
  pose proof (while_loop_exit _ _ _ _ _ _ _ Hrun) as Hex.
  assert (Hne : ex <> Running).
  { eapply while_loop_leaves; [|exact Hrun].
    unfold enough_fuel. cbn [clicks]. lia. }
  destruct ex; [exact Hex | exact I | congruence].
Qed.

Lemma best_effort_returns {P : Type} `{Page P} (c : call) (w : World) :
  exists p', best_effort c w = (inr tt, (p', snd w ++ [c])).
Proof.
  unfold best_effort, try_except, do_unit, ret.
  destruct (page_unit c w.1) as [[e|[]] p1]; exists p1; reflexivity.
Qed.

Lemma closed_snoc (log : list call) : closed (log ++ [close]) = true.
Proof.
  unfold closed. rewrite existsb_app. simpl. apply orb_true_r.
Qed.

Lemma yield_requests_inr (urls requests : list pystr) :
  yield_requests urls = inr requests ->
  requests = urls /\ Forall (fun u => has_scheme u = true) urls.
Proof.
  revert requests; induction urls as [|u urls IH]; intros requests; simpl.
  - intros [= <-]. split; [reflexivity | constructor].
  - unfold Request. destruct (has_scheme u) eqn:Eu; [|discriminate]. simpl.
    destruct (yield_requests urls) as [e|rs]; [discriminate|]. simpl.
    intros [= <-]. destruct (IH rs eq_refl) as [-> Hall].
    split; [reflexivity|]. constructor; assumption.
Qed.

(** What [parse_list] does once the harvest is over. *)
Lemma parse_list_returns {P : Type} `{Page P} (self : Spider) (w : World)
      (r : option (list pystr)) (w' : World) :
  parse_list self w = (inr r, w') ->
  exists st ex w1,
    harvest self (enough_fuel self) w = (inr (st, ex), w1) /\
    ex <> Running /\
    r = Some (slice_to (ordered_urls st) (posts_limit self)) /\
    snd w' = snd w1 ++ [close].
Proof.
  unfold parse_list, parse_list_fuel. unfold bind at 1.
  destruct (harvest self (enough_fuel self) w) as [[e|[st ex]] w1] eqn:Eh;
    [discriminate|].
  pose proof (harvest_exit _ _ _ _ _ Eh) as Hex.
  destruct (best_effort_returns close w1) as (p' & Hc).
  intros Hrun. exists st, ex, w1.
  destruct ex; [| |contradiction]; unfold bind at 1 in Hrun; rewrite Hc in Hrun;
    unfold bind, pure_result, ret in Hrun;
    destruct (yield_requests (slice_to (ordered_urls st) (posts_limit self)))
      as [e|requests] eqn:Ey; try discriminate;
    injection Hrun as <- <-; apply yield_requests_inr in Ey as [-> _];
    (split; [reflexivity|]); (split; [discriminate|]); split; reflexivity.
Qed.

Lemma slice_to_length {A : Type} (l : list A) (n : Z) :
  0 <= n -> len (slice_to l n) <= n.
Proof.
  intros Hn. unfold slice_to, len. destruct (Z.leb_spec 0 n); [|lia].
  rewrite length_take. lia.
Qed.

Lemma slice_to_short {A : Type} (l : list A) (n : Z) :
  0 <= n -> len (slice_to l n) < n -> slice_to l n = l.
Proof.
  intros Hn. unfold slice_to, len. destruct (Z.leb_spec 0 n); [|lia].
  rewrite length_take. intros Hlt. apply firstn_all2. lia.
Qed.

(** C7. A pass of the [while] that runs to its end appends the new URLs of
    the round to the collected ones; when it appends none the stall counter
    grows by exactly one, otherwise it is reset to zero.  No pass is started
    unless the stall counter is below the stall limit and the click count
    below the click ceiling: otherwise the loop is left at once, the state
    and the session untouched. *)
Theorem stall_counter_rule {P : Type} `{Page P}
        (self : Spider) (st : HarvestState) (w : World) :
  (forall st' w',
      round self st w = (inr (Some st'), w') ->
      exists news,
        ordered_urls st' = ordered_urls st ++ news /\
        stalls st' = match news with
                     | [] => stalls st + 1
                     | _ :: _ => 0
                     end) /\
  (forall fuel,
      ~ (stalls st < STALL_LIMIT self /\ clicks st < MAX_SHOW_MORE_CLICKS self) ->
      while_loop self (S fuel) st w = (inr (st, CondFalse), w)).
Proof.
  split.
  - intros st' w' Hrun. apply round_spec in Hrun. tauto.
  - intros fuel Hno. simpl.
    replace (loop_cond self st) with false; [reflexivity|].
    symmetry. unfold loop_cond.
    destruct (Z.ltb_spec (stalls st) (STALL_LIMIT self));
      [|apply andb_false_r].
    destruct (Z.ltb_spec (clicks st) (MAX_SHOW_MORE_CLICKS self));
      [lia|]. rewrite andb_false_r. reflexivity.
Qed.

Lemma stall_counter_rule_witness :
  let self := init (Some 5) in
  let st0 := {| seen := ∅; ordered_urls := []; clicks := 0; stalls := 0 |} in
  let st10 := {| seen := ∅; ordered_urls := []; clicks := 0; stalls := 10 |} in
  (exists st' w',
      round self st0 (scenario, []) = (inr (Some st'), w') /\
      exists news,
        ordered_urls st' = ordered_urls st0 ++ news /\
        stalls st' = match news with
                     | [] => stalls st0 + 1
                     | _ :: _ => 0
                     end) /\
  while_loop self 1 st10 (scenario, []) = (inr (st10, CondFalse), (scenario, [])).
Proof.
  intros self st0 st10. split.
  - destruct (round self st0 (scenario, [])) as [[e|[st'|]] w'] eqn:E;
      [vm_compute in E; discriminate | | vm_compute in E; discriminate].
    exists st', w'. split; [reflexivity|].
    exact (proj1 (stall_counter_rule self st0 (scenario, [])) st' w' E).
  - apply (proj2 (stall_counter_rule self st10 (scenario, [])) 0%nat).
    simpl. lia.
Defined.

(** Every return of [parse_list] comes after [page.close()]. *)
Lemma parse_list_returns_closed {P : Type} `{Page P} (self : Spider) (w : World)
      (r : option (list pystr)) (w' : World) :
  parse_list self w = (inr r, w') -> closed (snd w') = true.
Proof.
  intros Hrun.
  destruct (parse_list_returns _ _ _ _ Hrun) as (st & ex & w1 & _ & _ & _ & Hlog).
  rewrite Hlog. apply closed_snoc.
Qed.

(** A session on which the second reading of the links fails, as when the
    page crashes or navigates away after the first click. *)
Definition failing_session : Script :=
  [ inr [py "https://www.kp.ru/online/news/1/"];
    inl (OtherException "playwright.Error") ].

(** C4. On [failing_session] the error raised by [eval_on_selector_all] in
    the first pass of the [while] leaves [parse_list] while the session has
    not been closed. *)
Theorem parse_list_error_leaves_session_open :
  let out := parse_list (init None) (failing_session, []) in
  fst out = inl (OtherException "playwright.Error") /\
  closed (snd (snd out)) = false.
Proof. vm_compute. split; reflexivity. Qed.

End HarvesterClaims.

(** ** Claims on the extractor *)

Section ExtractorClaims.

(** A source that is absent ([None]) or empty ([""]). *)
Definition blank (o : option pystr) : Prop := o = None \/ o = Some [].

Lemma blank_truthy o : blank o -> truthy o = false.
Proof. intros [-> | ->]; reflexivity. Qed.

Lemma py_or_blank a b : blank a -> py_or a b = b.
Proof. intros Ha. unfold py_or. rewrite (blank_truthy _ Ha). reflexivity. Qed.

Lemma clean_text_blank o : blank o -> clean_text o = [].
Proof. intros [-> | ->]; reflexivity. Qed.

Lemma clean_all_blank xs :
  Forall (fun x => clean_text (Some x) = []) xs -> clean_all xs = [].
Proof.
  induction 1 as [|x xs Hx _ IH]; simpl; [reflexivity|].
  rewrite Hx. simpl. exact IH.
Qed.

Lemma clean_all_nonempty xs : Forall (fun x => x <> []) (clean_all xs).
Proof.
  induction xs as [|x xs IH]; simpl; [constructor|].
  destruct (clean_text (Some x)) eqn:E; simpl; [exact IH|].
  constructor; [discriminate | exact IH].
Qed.

(** A page without any of the data the extractor looks for. *)
Definition bare_response : Response :=
  {| url := py "https://www.kp.ru/online/news/1/?utm=x";
     h1_text := Some []; og_title := None;
     meta_description := None; og_description := None;
     published_time := None; time_datetime := None;
     og_image := None;
     meta_keywords := None; tag_texts := [];
     meta_author := None; author_texts := [];
     body_texts := [] |}.

(** C8. In the item [parse_article] yields, a field with a fallback chain
    whose first source is absent or empty is computed from the second source;
    when every source of the chain is absent or empty the field is the empty
    string (title, description, publication datetime) or the empty list
    (keywords, authors), and never [None]. *)
Theorem parse_article_fallback (r : Response) :
  let item := parse_article r in
  (blank (h1_text r) ->
   item !! "title" = Some (VStr (clean_text (og_title r))) /\
   (blank (og_title r) -> item !! "title" = Some (VStr []))) /\
  (blank (meta_description r) ->
   item !! "description" = Some (VStr (clean_text (og_description r))) /\
   (blank (og_description r) -> item !! "description" = Some (VStr []))) /\
  (blank (published_time r) ->
   item !! "publication_datetime" = Some (VStr (clean_text (time_datetime r))) /\
   (blank (time_datetime r) -> item !! "publication_datetime" = Some (VStr []))) /\
  (blank (meta_keywords r) ->
   item !! "keywords" = Some (VList (clean_all (tag_texts r))) /\
   (Forall (fun x => clean_text (Some x) = []) (tag_texts r) ->
    item !! "keywords" = Some (VList []))) /\
  (blank (meta_author r) ->
   item !! "authors" = Some (VList (dict_fromkeys (clean_all (author_texts r)))) /\
   (Forall (fun x => clean_text (Some x) = []) (author_texts r) ->
    item !! "authors" = Some (VList []))).
Proof.
  unfold parse_article. cbv zeta.
  repeat split; intros; simplify_map_eq;
    unfold extract_title, extract_description, extract_publication_datetime,
           extract_keywords, extract_authors;
    rewrite ?py_or_blank, ?blank_truthy by assumption;
    rewrite ?clean_text_blank, ?clean_all_blank by assumption;
    reflexivity.
Qed.

Lemma parse_article_fallback_witness :
  let item := parse_article bare_response in
  item !! "title" = Some (VStr []) /\
  item !! "description" = Some (VStr []) /\
  item !! "publication_datetime" = Some (VStr []) /\
  item !! "keywords" = Some (VList []) /\
  item !! "authors" = Some (VList []).
Proof.
  pose proof (parse_article_fallback bare_response) as (Ht & Hd & Hp & Hk & Ha).
  assert (Hnone : blank None) by (left; reflexivity).
  assert (Hempty : blank (Some [])) by (right; reflexivity).
  exact (conj (proj2 (Ht Hempty) Hnone)
        (conj (proj2 (Hd Hnone) Hnone)
        (conj (proj2 (Hp Hnone) Hnone)
        (conj (proj2 (Hk Hnone) (List.Forall_nil _))
              (proj2 (Ha Hnone) (List.Forall_nil _)))))).
Defined.

(** The authors taken from the author-labelled regions (no [author] meta
    tag) never repeat a name, and keep the order of first occurrence. *)
Lemma extract_authors_fallback_NoDup (r : Response) :
  blank (meta_author r) -> NoDup (extract_authors r).
Proof.
  intros Hb. unfold extract_authors. rewrite (blank_truthy _ Hb).
  apply NoDup_dict_fromkeys.
Qed.

Example dict_fromkeys_ABAC :
  dict_fromkeys [py "A"; py "B"; py "A"; py "C"] = [py "A"; py "B"; py "C"].
Proof. vm_compute. reflexivity. Qed.

(** An article whose [author] meta tag names one author twice. *)
Definition response_ABAC : Response :=
  {| url := py "https://www.kp.ru/online/news/1/";
     h1_text := Some (py "T"); og_title := None;
     meta_description := None; og_description := None;
     published_time := None; time_datetime := None;
     og_image := None;
     meta_keywords := None; tag_texts := [];
     meta_author := Some (py "A, B, A, C"); author_texts := [];
     body_texts := [] |}.

(** C9. With the authors in the [author] meta tag the list is split and
    cleaned but not deduplicated: for the content ["A, B, A, C"] the item
    carries ["A"; "B"; "A"; "C"], with "A" twice. *)
Theorem parse_article_meta_authors_repeat :
  parse_article response_ABAC !! "authors"
  = Some (VList [py "A"; py "B"; py "A"; py "C"]) /\
  ~ NoDup (extract_authors response_ABAC).
Proof.
  split; [vm_compute; reflexivity|].
  assert (E : extract_authors response_ABAC = [py "A"; py "B"; py "A"; py "C"])
    by (vm_compute; reflexivity).
  rewrite E. intros Hnd. apply NoDup_cons in Hnd as [Hnin _].
  apply Hnin. apply elem_of_cons. right. apply elem_of_cons. left. reflexivity.
Qed.

End ExtractorClaims.

(** ** Claims on the image post-processor *)

Section PhotoClaims.

Import PhotoDownloaderPipeline.

(** A server that answers every request with [code] and a body that is not
    an image; Pillow cannot identify such a body. *)
Definition server_answering (code : Z) : Env :=
  {| Img := unit;
     session_get := fun _ => inr {| status := code; read := inr [] |};
     Image_open := fun _ => inl (OtherException "PIL.UnidentifiedImageError");
     mode := fun _ => "RGB"%string;
     convert_RGB := fun img => inr img;
     save_JPEG := fun _ _ => inr [];
     b64encode := fun _ => [] |}.

(** A record with a header photo. *)
Definition item_with_photo : Item :=
  <[ "header_photo_url" := VStr (py "https://s.kp.ru/photo.jpg") ]>
  (<[ "header_photo_base64" := VNone ]>
  (<[ "title" := VStr (py "T") ]>
  (<[ "source_url" := VStr (py "https://www.kp.ru/online/news/1/") ]> ∅))).

(** C2, as stated, fails: after a fetch answered 404 the encoded-photo field
    holds the empty string, not [None]. *)
Lemma process_item_404_not_None :
  exists item',
    process_item (server_answering 404) default item_with_photo = inr item' /\
    item' !! "header_photo_base64" = Some (VStr []) /\
    item' !! "header_photo_base64" <> Some VNone.
Proof.
  eexists. split; [vm_compute; reflexivity|].
  split; [reflexivity | discriminate].
Qed.

(** C2, amended.  For a record with a header photo URL: when the fetch is
    answered with a status other than 200 the encoded-photo field is set to
    the empty string and every other field, the photo URL among them, is
    left as it was; when the fetch raises [InvalidUrlClientError] both the
    encoded-photo field and the photo-URL field are set to [None] and every
    other field is left as it was. *)
Theorem process_item_photo_failure (env : Env) (self : t) (item : Item) :
  value_truthy (item_get item "header_photo_url") = true ->
  (forall response,
      session_get env (item_get item "header_photo_url") = inr response ->
      status response <> 200 ->
      exists item',
        process_item env self item = inr item' /\
        item' !! "header_photo_base64" = Some (VStr []) /\
        forall k, k <> "header_photo_base64"%string -> item' !! k = item !! k) /\
  (session_get env (item_get item "header_photo_url") = inl InvalidUrlClientError ->
   exists item',
     process_item env self item = inr item' /\
     item' !! "header_photo_base64" = Some VNone /\
     item' !! "header_photo_url" = Some VNone /\
     forall k, k <> "header_photo_base64"%string ->
               k <> "header_photo_url"%string -> item' !! k = item !! k).
Proof.
  intros Hurl. split.
  - intros response Hget Hstatus.
    unfold process_item, _download_photo_to_base64. rewrite Hurl, Hget. simpl.
    destruct (Z.eqb_spec (status response) 200) as [|_]; [contradiction|]. simpl.
    eexists. split; [reflexivity|]. split.
    + apply lookup_insert_eq.
    + intros k Hk. apply lookup_insert_ne. congruence.
  - intros Hget.
    unfold process_item, _download_photo_to_base64. rewrite Hurl, Hget. simpl.
    eexists. split; [reflexivity|]. split; [apply lookup_insert_eq|]. split.
    + etransitivity; [apply lookup_insert_ne; discriminate | apply lookup_insert_eq].
    + intros k Hk1 Hk2.
      etransitivity; apply lookup_insert_ne; congruence.
Qed.

Lemma process_item_photo_failure_witness :
  exists item',
    process_item (server_answering 404) default item_with_photo = inr item' /\
    item' !! "header_photo_base64" = Some (VStr []) /\
    forall k, k <> "header_photo_base64"%string ->
              item' !! k = item_with_photo !! k.
Proof.
  apply (proj1 (process_item_photo_failure (server_answering 404) default
                  item_with_photo ltac:(reflexivity))
               {| status := 404; read := inr [] |}).
  - reflexivity.
  - simpl. lia.
Defined.

(** C3. When the server answers 200 with a body that is not an image,
    [Image.open] raises, nothing in [process_item] catches the exception, and
    the record is not returned. *)
Theorem process_item_undecodable_raises :
  process_item (server_answering 200) default item_with_photo
  = inl (OtherException "PIL.UnidentifiedImageError").
Proof. vm_compute. reflexivity. Qed.

(** Only [InvalidUrlClientError] is caught: any other exception raised while
    downloading or recompressing leaves [process_item]. *)
Lemma process_item_propagates (env : Env) (self : t) (item : Item) (e : exn) :
  value_truthy (item_get item "header_photo_url") = true ->
  _download_photo_to_base64 env self (item_get item "header_photo_url") = inl e ->
  e <> InvalidUrlClientError ->
  process_item env self item = inl e.
Proof.
  intros Hurl Hdl Hne. unfold process_item. rewrite Hurl, Hdl.
  destruct e; [contradiction | reflexivity..].
Qed.

End PhotoClaims.

(** ** Claims on the storage sink *)

Section MongoClaims.

Import MongoPipeline.

(** The two unique indexes hold of the collection. *)
Definition indexes_hold (c : Collection) : Prop :=
  NoDup (List.map (index_key "_id") c) /\
  NoDup (List.map (index_key "source_url") c).

(** The documents stored under a source URL. *)
Definition stored_under (v : value) (c : Collection) : list Doc :=
  List.filter (has_key "source_url" v) c.

Lemma existsb_has_key field v (c : Collection) :
  existsb (has_key field v) c = true <->
  exists d, d ∈ c /\ index_key field d = v.
Proof.
  rewrite existsb_exists. split.
  - intros (d & Hin & Hk). exists d. split; [apply list_elem_of_In, Hin|].
    unfold has_key in Hk. apply bool_decide_eq_true in Hk. exact Hk.
  - intros (d & Hin & Hk). exists d. split; [apply list_elem_of_In, Hin|].
    unfold has_key. apply bool_decide_eq_true. exact Hk.
Qed.

Lemma stored_under_unique v (c : Collection) (d : Doc) :
  NoDup (List.map (index_key "source_url") c) ->
  d ∈ c -> index_key "source_url" d = v ->
  stored_under v c = [d].
Proof.
  unfold stored_under. induction c as [|x c IH]; intros Hnd Hin Hk.
  - inversion Hin.
  - simpl in Hnd. apply NoDup_cons in Hnd as [Hx Hnd]. simpl.
    apply elem_of_cons in Hin as [<- | Hin].
    + unfold has_key at 1. rewrite bool_decide_eq_true_2 by exact Hk.
      f_equal. clear IH. induction c as [|y c IHc]; [reflexivity|]. simpl.
      simpl in Hx. rewrite not_elem_of_cons in Hx. destruct Hx as [Hxy Hx].
      apply NoDup_cons in Hnd as [_ Hnd].
      unfold has_key at 1. rewrite bool_decide_eq_false_2 by congruence.
      apply IHc; assumption.
    + unfold has_key at 1. rewrite bool_decide_eq_false_2.
      * apply IH; assumption.
      * intros Hxk. apply Hx. rewrite Hxk, <- Hk.
        apply list_elem_of_fmap. exists d. split; [reflexivity | exact Hin].
Qed.

(** The update that follows a refused insert carries the [_id] the insert
    has just put into the dictionary, which is not the [_id] of the stored
    document: the server rejects it. *)
Lemma update_first_rejected v (fields : Doc) oid (before c : Collection) :
  fields !! "_id" = Some (VObjectId oid) ->
  (forall d, d ∈ c -> index_key "_id" d <> VObjectId oid) ->
  (exists d, d ∈ c /\ index_key "source_url" d = v) ->
  update_first v fields before c = Some (inl WriteError).
Proof.
  intros Hid. revert before.
  induction c as [|x c IH]; intros before Hfresh (d & Hin & Hk).
  - inversion Hin.
  - simpl. unfold has_key at 1.
    destruct (decide (index_key "source_url" x = v)) as [Hx|Hx].
    + rewrite bool_decide_eq_true_2 by exact Hx.
      assert (Hne : index_key "_id" (apply_set fields x) <> index_key "_id" x).
      { unfold apply_set, index_key at 1.
        rewrite (lookup_union_Some_l _ _ _ _ Hid). simpl.
        intros Heq. apply (Hfresh x); [apply elem_of_cons; left; reflexivity|].
        symmetry. exact Heq. }
      rewrite bool_decide_eq_false_2 by exact Hne. reflexivity.
    + rewrite bool_decide_eq_false_2 by exact Hx.
      apply IH.
      * intros y Hy. apply Hfresh. apply elem_of_cons. right. exact Hy.
      * exists d. split; [|exact Hk].
        apply elem_of_cons in Hin as [-> | Hin]; [contradiction | exact Hin].
Qed.

Lemma setdefault_lookup_ne k' v (doc : Doc) k :
  k <> k' -> setdefault k' v doc !! k = doc !! k.
Proof.
  intros Hk. unfold setdefault.
  destruct (doc !! k'); [reflexivity|]. apply lookup_insert_ne. congruence.
Qed.

Lemma make_doc_lookup_ne now (item : Item) k :
  k <> "parsed_at_utc"%string -> k <> "header_photo_base64"%string ->
  k <> "header_photo_url"%string ->
  make_doc now item !! k = item !! k.
Proof.
  intros H1 H2 H3. unfold make_doc.
  etransitivity; [apply lookup_insert_ne; congruence|].
  etransitivity; apply setdefault_lookup_ne; assumption.
Qed.

(** What [process_item] does on a conflict: the insert is refused, the
    update is rejected with [WriteError], the collection stays as it was. *)
Lemma process_item_conflict now oid oid' (c : Collection) (item : Item) v :
  item !! "source_url" = Some v ->
  item !! "_id" = None ->
  (forall d, d ∈ c -> index_key "_id" d <> VObjectId oid) ->
  (exists d, d ∈ c /\ index_key "source_url" d = v) ->
  process_item now oid oid' c item = (inl WriteError, c).
Proof.
  intros Hurl Hid Hfresh Hex.
  assert (Hdoc_id : make_doc now item !! "_id" = None)
    by (rewrite make_doc_lookup_ne by discriminate; exact Hid).
  assert (Hdoc_url : make_doc now item !! "source_url" = Some v)
    by (rewrite make_doc_lookup_ne by discriminate; exact Hurl).
  unfold process_item, insert_one. rewrite Hdoc_id.
  set (doc := <[ "_id" := VObjectId oid ]> (make_doc now item)).
  assert (Hk : index_key "source_url" doc = v).
  { unfold index_key, doc, Doc in *.
    rewrite lookup_insert_ne by discriminate. rewrite Hdoc_url. reflexivity. }
  assert (Hviol : violates_unique c doc = true).
  { unfold violates_unique. apply orb_true_iff. right.
    apply existsb_has_key. rewrite Hk. exact Hex. }
  rewrite Hviol.
  assert (Hget : doc !! "source_url" = Some v).
  { unfold doc, Doc in *. rewrite lookup_insert_ne by discriminate. exact Hdoc_url. }
  rewrite Hget. unfold update_one_set_upsert.
  rewrite (update_first_rejected v doc oid [] c); [reflexivity| |exact Hfresh|exact Hex].
  unfold doc, Doc in *. apply lookup_insert_eq.
Qed.

(** A collection holding one article, and a later parse of the same article
    that found a new title and no description. *)
Definition article_url : pystr := py "https://www.kp.ru/online/news/1/".

Definition stored_article : Doc :=
  <[ "_id" := VObjectId 1 ]>
  (<[ "source_url" := VStr article_url ]>
  (<[ "title" := VStr (py "old title") ]>
  (<[ "description" := VStr (py "old description") ]>
  (<[ "header_photo_url" := VNone ]>
  (<[ "header_photo_base64" := VNone ]>
  (<[ "parsed_at_utc" := VStr (py "2024-01-01T00:00:00+00:00") ]> ∅)))))).

Definition later_parse : Item :=
  <[ "source_url" := VStr article_url ]>
  (<[ "title" := VStr (py "new title") ]> ∅).

Definition later_time : pystr := py "2024-01-02T00:00:00+00:00".

(** A record whose [source_url] is not stored yet is inserted: one document
    more, the record's fields in it. *)
Lemma process_item_new now oid oid' (c : Collection) (item : Item) :
  item !! "_id" = None ->
  violates_unique c (<[ "_id" := VObjectId oid ]> (make_doc now item)) = false ->
  process_item now oid oid' c item
  = (inr item, c ++ [<[ "_id" := VObjectId oid ]> (make_doc now item)]).
Proof.
  intros Hid Hv.
  assert (Hdoc_id : make_doc now item !! "_id" = None)
    by (rewrite make_doc_lookup_ne by discriminate; exact Hid).
  unfold process_item, insert_one. rewrite Hdoc_id, Hv. reflexivity.
Qed.

End MongoClaims.


(** * Further properties of the code *)

(** ** Text helpers: [clean_text] and [normalize_url] *)

Section TextFacts.

Import KpArticlesSpider.

Lemma collapsed_only_spaces s c :
  collapsed s -> c ∈ s -> isspace c = true -> c = SPACE.
Proof.
  induction 1 as [|a Ha|a d r Ha Hd Hr IH]; intros Hin Hc.
  - inversion Hin.
  - apply list_elem_of_singleton in Hin. subst. auto.
  - apply elem_of_cons in Hin as [-> | Hin]; auto.
Qed.

Lemma collapsed_no_adjacent s l1 c d l2 :
  collapsed s -> s = l1 ++ c :: d :: l2 -> isspace c = true -> isspace d = false.
Proof.
  intros Hs. revert l1. induction Hs as [|a Ha|a e r Ha He Hr IH]; intros l1 Heq Hc.
  - destruct l1; discriminate.
  - destruct l1 as [|x [|y l1]]; discriminate.
  - destruct l1 as [|x l1]; simpl in Heq.
    + injection Heq as -> -> _. auto.
    + injection Heq as -> Heq. eapply IH; eassumption.
Qed.

Lemma rstrip_last s r c : rstrip s = r ++ [c] -> isspace c = false.
Proof.
  revert r; induction s as [|a s IH]; intros r; [destruct r; discriminate|].
  rewrite rstrip_cons. destruct (rstrip s) as [|e r'] eqn:Es.
  - destruct (isspace a) eqn:Ea; [destruct r; discriminate|].
    destruct r as [|x [|y r]]; try discriminate. intros [= <-]. exact Ea.
  - destruct r as [|x r]; [discriminate|]. simpl. intros [= _ Heq].
    apply (IH r). exact Heq.
Qed.

Lemma strip_first s c r : strip s = c :: r -> isspace c = false.
Proof.
  unfold strip. pose proof (lstrip_head s) as Hh.
  destruct (lstrip s) as [|a t]; [discriminate|].
  destruct (rstrip_head a t Hh) as [r' Hr']. rewrite Hr'. intros [= <- _]. exact Hh.
Qed.

(** X1. The text [clean_text] returns holds no whitespace character other
    than the space, no space next to another one, and neither starts nor ends
    with whitespace. *)
Theorem clean_text_shape (s : option pystr) :
  (forall c, c ∈ clean_text s -> isspace c = true -> c = SPACE) /\
  (forall l1 c d l2,
      clean_text s = l1 ++ c :: d :: l2 -> isspace c = true -> isspace d = false) /\
  (forall c r, clean_text s = c :: r -> isspace c = false) /\
  (forall r c, clean_text s = r ++ [c] -> isspace c = false).
Proof.
  pose proof (clean_text_collapsed s) as Hc. repeat split.
  - intros c. apply collapsed_only_spaces, Hc.
  - intros l1 c d l2. apply collapsed_no_adjacent, Hc.
  - intros c r. apply strip_first.
  - intros r c. unfold clean_text, strip. apply rstrip_last.
Qed.

(** *** [s.split("?")[0]] *)

Lemma before_query_cons c r :
  before_query (c :: r) = if N.eqb QUESTION c then [] else c :: before_query r.
Proof.
  unfold before_query. cbn [split_on].
  destruct (N.eqb QUESTION c); [reflexivity|].
  destruct (split_on (N.eqb QUESTION) r); reflexivity.
Qed.

Lemma before_query_no_query s : QUESTION ∉ before_query s.
Proof.
  induction s as [|c r IH]; [apply not_elem_of_nil|].
  rewrite before_query_cons. destruct (N.eqb_spec QUESTION c) as [|Hne].
  - apply not_elem_of_nil.
  - apply not_elem_of_cons. split; assumption.
Qed.

Lemma before_query_fixed s : QUESTION ∉ s -> before_query s = s.
Proof.
  induction s as [|c r IH]; intros Hno; [reflexivity|].
  apply not_elem_of_cons in Hno as [Hc Hr].
  rewrite before_query_cons. destruct (N.eqb_spec QUESTION c); [contradiction|].
  rewrite (IH Hr). reflexivity.
Qed.


Lemma lstrip_suffix s : lstrip s `suffix_of` s.
Proof.
  induction s as [|c r IH]; simpl; [reflexivity|].
  destruct (isspace c); [apply suffix_cons_r, IH | reflexivity].
Qed.

Lemma rstrip_prefix s : rstrip s `prefix_of` s.
Proof.
  induction s as [|c r IH]; [reflexivity|].
  rewrite rstrip_cons. destruct (rstrip r) as [|e r'].
  - destruct (isspace c); [apply prefix_nil | apply prefix_cons, prefix_nil].
  - apply prefix_cons, IH.
Qed.

Lemma elem_of_strip s c : c ∈ strip s -> c ∈ s.
Proof.
  unfold strip. intros Hin.
  destruct (rstrip_prefix (lstrip s)) as [k Hk].
  destruct (lstrip_suffix s) as [k' Hk'].
  rewrite Hk', Hk. rewrite !elem_of_app. auto.
Qed.

Lemma normalize_url_no_query (u : option pystr) : QUESTION ∉ normalize_url u.
Proof.
  intros Hin. apply elem_of_strip in Hin. exact (before_query_no_query _ Hin).
Qed.

Lemma normalize_url_again (u : option pystr) :
  normalize_url (Some (normalize_url u)) = normalize_url u.
Proof.
  unfold normalize_url at 1. simpl or_empty.
  rewrite before_query_fixed by apply normalize_url_no_query.
  unfold normalize_url. apply strip_idem.
Qed.

(** X2. Normalising a link twice gives what normalising it once gives. *)
Theorem normalize_url_idempotent (u : option pystr) :
  normalize_url (Some (normalize_url u)) = normalize_url u.
Proof.
  unfold normalize_url at 1. simpl or_empty.
  rewrite before_query_fixed.
  - unfold normalize_url. apply strip_idem.
  - intros Hin. apply elem_of_strip in Hin.
    exact (before_query_no_query _ Hin).
Qed.

(** X3. A normalised link holds no question mark and neither starts nor ends
    with whitespace; when the link has no question mark and no whitespace
    around it, normalising leaves it as it is. *)
Theorem normalize_url_shape (u : option pystr) :
  (QUESTION ∉ normalize_url u) /\
  (forall c r, normalize_url u = c :: r -> isspace c = false) /\
  (forall r c, normalize_url u = r ++ [c] -> isspace c = false) /\
  (forall s, u = Some s -> QUESTION ∉ s -> strip s = s -> normalize_url u = s).
Proof.
  repeat split.
  - intros Hin. apply elem_of_strip in Hin. exact (before_query_no_query _ Hin).
  - intros c r. apply strip_first.
  - intros r c. unfold normalize_url, strip. apply rstrip_last.
  - intros s -> Hq Hs. unfold normalize_url. simpl.
    rewrite (before_query_fixed _ Hq). exact Hs.
Qed.

Lemma normalize_url_shape_witness :
  normalize_url (Some (py "/online/news/1/")) = py "/online/news/1/".
Proof.
  apply (proj2 (proj2 (proj2 (normalize_url_shape (Some (py "/online/news/1/")))))
           (py "/online/news/1/") eq_refl).
  - intros Hin. vm_compute in Hin.
    repeat (apply elem_of_cons in Hin as [Hin|Hin]; [discriminate|]).
    inversion Hin.
  - vm_compute. reflexivity.
Defined.

End TextFacts.

(** ** The harvester: helpers of [parse_list] *)

(** A session on which nothing is left to reveal: no control, no overlay, no
    link. *)
Inductive Exhausted : Type := exhausted.

Global Instance Exhausted_Page : KpArticlesSpider.Page Exhausted := {|
  KpArticlesSpider.page_unit := fun _ p => (inr tt, p);
  KpArticlesSpider.page_count := fun _ p => (inr 0, p);
  KpArticlesSpider.page_hrefs := fun _ p => (inr (Some []), p)
|}.

Section HarvesterHelpers.

Import KpArticlesSpider.

Context {P : Type} `{Page P}.

Lemma normalize_all_normal (hrefs : list (option pystr)) :
  Forall (fun u => u <> [] /\ normalize_url (Some u) = u) (normalize_all hrefs).
Proof.
  induction hrefs as [|h hrefs IH]; simpl; [constructor|].
  destruct (normalize_url h) eqn:E; simpl; [exact IH|].
  constructor; [|exact IH]. split; [discriminate|].
  rewrite <- E. apply normalize_url_again.
Qed.

Lemma do_unit_run (c : call) (w : @World P) :
  do_unit c w = ((page_unit c w.1).1, ((page_unit c w.1).2, w.2 ++ [c])).
Proof. unfold do_unit. destruct (page_unit c w.1). reflexivity. Qed.

Lemma do_count_run (sel : string) (w : @World P) :
  do_count sel w
  = ((page_count sel w.1).1, ((page_count sel w.1).2, w.2 ++ [locator_count sel])).
Proof. unfold do_count. destruct (page_count sel w.1). reflexivity. Qed.

(** *** What a computation logs, and that it returns *)

(** Every call the computation logs satisfies [ok]. *)
Definition logs {A : Type} (ok : call -> bool) (m : @M P A) : Prop :=
  forall w r w', m w = (r, w') ->
    exists l, snd w' = snd w ++ l /\ forallb ok l = true.

(** The computation raises nothing. *)
Definition steady {A : Type} (m : @M P A) : Prop :=
  forall w, exists a w', m w = (inr a, w').

Section Logs.

Variable ok : call -> bool.

Lemma logs_ret {A : Type} (a : A) : logs ok (@ret P A a).
Proof.
  intros w r w' [= <- <-]. exists []. rewrite app_nil_r. split; reflexivity.
Qed.

Lemma logs_bind {A B : Type} (m : @M P A) (k : A -> @M P B) :
  logs ok m -> (forall a, logs ok (k a)) -> logs ok (bind m k).
Proof.
  intros Hm Hk w r w' Hrun. unfold bind in Hrun.
  destruct (m w) as [[e|a] w1] eqn:Em.
  - injection Hrun as <- <-. exact (Hm _ _ _ Em).
  - destruct (Hm _ _ _ Em) as (l1 & Hl1 & Ho1).
    destruct (Hk a _ _ _ Hrun) as (l2 & Hl2 & Ho2).
    exists (l1 ++ l2). rewrite Hl2, Hl1, app_assoc, forallb_app, Ho1, Ho2.
    split; reflexivity.
Qed.

Lemma logs_try_except {A : Type} (m h : @M P A) :
  logs ok m -> logs ok h -> logs ok (try_except m h).
Proof.
  intros Hm Hh w r w' Hrun. unfold try_except in Hrun.
  destruct (m w) as [[e|a] w1] eqn:Em.
  - destruct (Hm _ _ _ Em) as (l1 & Hl1 & Ho1).
    destruct (Hh _ _ _ Hrun) as (l2 & Hl2 & Ho2).
    exists (l1 ++ l2). rewrite Hl2, Hl1, app_assoc, forallb_app, Ho1, Ho2.
    split; reflexivity.
  - injection Hrun as <- <-. exact (Hm _ _ _ Em).
Qed.

Lemma logs_do_unit (c : call) : ok c = true -> logs ok (do_unit c).
Proof.
  intros Hc w r w'. rewrite do_unit_run. intros [= <- <-].
  exists [c]. simpl. rewrite Hc. split; reflexivity.
Qed.

Lemma logs_do_count (sel : string) :
  ok (locator_count sel) = true -> logs ok (do_count sel).
Proof.
  intros Hc w r w'. rewrite do_count_run. intros [= <- <-].
  exists [locator_count sel]. simpl. rewrite Hc. split; reflexivity.
Qed.

Lemma logs_collect_urls_from_dom :
  (forall a, ok (eval_on_selector_all SEL_NEWS a) = true) ->
  logs ok collect_urls_from_dom.
Proof.
  intros Hc w r w'. unfold collect_urls_from_dom, bind, do_hrefs, ret.
  destruct (page_hrefs SEL_NEWS w.1) as [[e|hrefs] p1]; intros [= <- <-];
    eexists [_]; simpl; rewrite Hc; split; reflexivity.
Qed.

(** [ok] holds of every call but, possibly, [close]. *)
Hypothesis ok_calls : forall c, c <> close -> ok c = true.

Ltac logs_step :=
  first
    [ apply logs_ret
    | apply logs_do_count; apply ok_calls; discriminate
    | apply logs_do_unit; apply ok_calls; discriminate
    | apply logs_collect_urls_from_dom; intros ?; apply ok_calls; discriminate
    | apply logs_try_except
    | apply logs_bind; [|intros ?] ].

Lemma logs_dismiss_candidates cands : logs ok (dismiss_candidates cands).
Proof.
  induction cands as [|sel rest IH]; simpl; [apply logs_ret|].
  apply logs_bind.
  - repeat logs_step.
    match goal with |- context [0 <? ?n] => destruct (0 <? n) end;
      repeat logs_step.
  - intros [|]; [apply logs_ret | exact IH].
Qed.

Lemma logs_try_dismiss_overlays : logs ok try_dismiss_overlays.
Proof.
  unfold try_dismiss_overlays, best_effort.
  apply logs_bind; [repeat logs_step|]. intros _. apply logs_dismiss_candidates.
Qed.

Lemma logs_click_show_more_and_wait prev :
  logs ok (click_show_more_and_wait prev).
Proof.
  unfold click_show_more_and_wait, best_effort.
  apply logs_bind; [logs_step|]. intros n.
  destruct (n =? 0); [apply logs_ret|].
  apply logs_bind; [apply logs_try_dismiss_overlays|]. intros _.
  apply logs_bind; [repeat logs_step|]. intros scrolled.
  destruct (negb scrolled); [apply logs_ret|].
  apply logs_bind; [repeat logs_step|]. intros clicked.
  destruct (negb clicked); [apply logs_ret|].
  repeat logs_step.
Qed.

Lemma logs_round self st : logs ok (round self st).
Proof.
  unfold round. apply logs_bind; [logs_step|]. intros prev.
  apply logs_bind; [apply logs_click_show_more_and_wait|]. intros b.
  destruct (negb b); repeat logs_step.
Qed.

Lemma logs_while_loop self fuel st : logs ok (while_loop self fuel st).
Proof.
  revert st; induction fuel as [|fuel IH]; intros st; simpl; [apply logs_ret|].
  destruct (loop_cond self st); [|apply logs_ret].
  apply logs_bind; [apply logs_round|]. intros [st'|]; [apply IH | apply logs_ret].
Qed.

Lemma logs_harvest self fuel : logs ok (harvest self fuel).
Proof.
  unfold harvest, best_effort.
  apply logs_bind; [repeat logs_step|]. intros _.
  apply logs_bind; [logs_step|]. intros urls. apply logs_while_loop.
Qed.

End Logs.

Lemma steady_ret {A : Type} (a : A) : steady (@ret P A a).
Proof. intros w. exists a, w. reflexivity. Qed.

Lemma steady_bind {A B : Type} (m : @M P A) (k : A -> @M P B) :
  steady m -> (forall a, steady (k a)) -> steady (bind m k).
Proof.
  intros Hm Hk w. unfold bind. destruct (Hm w) as (a & w1 & ->). apply Hk.
Qed.

Lemma steady_try_except {A : Type} (m h : @M P A) :
  steady h -> steady (try_except m h).
Proof.
  intros Hh w. unfold try_except. destruct (m w) as [[e|a] w1]; [apply Hh|].
  exists a, w1. reflexivity.
Qed.

Lemma steady_dismiss_candidates cands : steady (dismiss_candidates cands).
Proof.
  induction cands as [|sel rest IH]; simpl; [apply steady_ret|].
  apply steady_bind; [apply steady_try_except, steady_ret|].
  intros [|]; [apply steady_ret | exact IH].
Qed.

Lemma steady_try_dismiss_overlays : steady try_dismiss_overlays.
Proof.
  unfold try_dismiss_overlays, best_effort.
  apply steady_bind; [apply steady_try_except, steady_ret|].
  intros _. apply steady_dismiss_candidates.
Qed.

End HarvesterHelpers.

Section HarvesterExtras.

Import KpArticlesSpider.

Definition not_close (c : call) : bool :=
  match c with close => false | _ => true end.

Lemma not_close_calls c : c <> close -> not_close c = true.
Proof. destruct c; try reflexivity. congruence. Qed.

Lemma not_close_closed (l : list call) :
  forallb not_close l = true -> closed l = false.
Proof.
  induction l as [|c l IH]; [reflexivity|]. simpl.
  intros Hc. apply andb_prop in Hc as [Hc Hl].
  unfold closed in *. simpl. rewrite (IH Hl).
  destruct c; try reflexivity. discriminate.
Qed.

(** X4. [collect_urls_from_dom] makes one query on the page; the links it
    returns are not empty and are normalised (normalising one of them again
    changes nothing, so none carries a query string). *)
Theorem collect_urls_from_dom_normalised {P : Type} `{Page P}
        (w : World) (urls : list pystr) (w' : World) :
  collect_urls_from_dom w = (inr urls, w') ->
  Forall (fun u => u <> [] /\ normalize_url (Some u) = u /\ QUESTION ∉ u) urls /\
  exists answer, snd w' = snd w ++ [eval_on_selector_all SEL_NEWS answer].
Proof.
  unfold collect_urls_from_dom, bind, do_hrefs, ret.
  destruct (page_hrefs SEL_NEWS w.1) as [[e|hrefs] p1]; [discriminate|].
  intros [= <- <-]. split; [|eexists; reflexivity].
  eapply Forall_impl; [apply normalize_all_normal|].
  intros u [Hne Hfix]. split; [exact Hne|]. split; [exact Hfix|].
  rewrite <- Hfix. apply normalize_url_no_query.
Qed.

Lemma collect_urls_from_dom_normalised_witness :
  exists urls w',
    collect_urls_from_dom (scenario, []) = (inr urls, w') /\
    Forall (fun u => u <> [] /\ normalize_url (Some u) = u /\ QUESTION ∉ u) urls.
Proof.
  destruct (collect_urls_from_dom (scenario, [])) as [[e|urls] w'] eqn:E;
    [vm_compute in E; discriminate|].
  exists urls, w'. split; [reflexivity|].
  exact (proj1 (collect_urls_from_dom_normalised (scenario, []) urls w' E)).
Defined.

(** X5. [try_dismiss_overlays] is best effort: whatever the page does, it
    raises nothing, and it never closes the page. *)
Theorem try_dismiss_overlays_never_raises {P : Type} `{Page P} (w : World) :
  exists w' l,
    try_dismiss_overlays w = (inr tt, w') /\
    snd w' = snd w ++ l /\ closed l = false.
Proof.
  destruct (steady_try_dismiss_overlays w) as ([] & w' & E).
  destruct (logs_try_dismiss_overlays not_close not_close_calls _ _ _ E)
    as (l & Hl & Hok).
  exists w', l. split; [exact E|]. split; [exact Hl|].
  apply not_close_closed, Hok.
Qed.

(** X6. When the reveal-more control is not on the page (its count is 0),
    [click_show_more_and_wait] returns [False] after that one count: nothing
    is pressed, scrolled or clicked. *)
Theorem click_show_more_absent {P : Type} `{Page P}
        (prev : Z) (w : World) (p' : P) :
  page_count SEL_SHOW_MORE (fst w) = (inr 0, p') ->
  click_show_more_and_wait prev w
  = (inr false, (p', snd w ++ [locator_count SEL_SHOW_MORE])).
Proof.
  intros Hc. unfold click_show_more_and_wait, bind. rewrite do_count_run, Hc.
  reflexivity.
Qed.

Lemma click_show_more_absent_witness :
  click_show_more_and_wait 0 (exhausted, [])
  = (inr false, (exhausted, [locator_count SEL_SHOW_MORE])).
Proof.
  apply (click_show_more_absent 0 (exhausted, []) exhausted). reflexivity.
Defined.

(** X7. Once the control has been counted without error,
    [click_show_more_and_wait] raises nothing: errors of overlay dismissal,
    scrolling, clicking and waiting are swallowed.  It returns [True] only
    after it has called the click on the control. *)
Theorem click_show_more_swallows_errors {P : Type} `{Page P}
        (prev : Z) (w : World) (n : Z) (p' : P) :
  page_count SEL_SHOW_MORE (fst w) = (inr n, p') ->
  exists b w' l,
    click_show_more_and_wait prev w = (inr b, w') /\
    snd w' = snd w ++ l /\
    (b = true -> locator_click SEL_SHOW_MORE ∈ l).
Proof.
  intros Hc.
  destruct (click_show_more_and_wait prev w) as [r w'] eqn:Erun.
  destruct (logs_click_show_more_and_wait (fun _ => true) (fun _ _ => eq_refl)
              prev _ _ _ Erun) as (l & Hl & _).
  revert Erun. unfold click_show_more_and_wait. unfold bind at 1.
  rewrite do_count_run, Hc. cbn [fst snd].
  destruct (n =? 0).
  { intros [= <- <-]. exists false, (p', w.2 ++ [locator_count SEL_SHOW_MORE]), l.
    split; [reflexivity|]. split; [exact Hl | discriminate]. }
  unfold bind at 1.
  destruct (steady_try_dismiss_overlays (p', w.2 ++ [locator_count SEL_SHOW_MORE]))
    as ([] & w2 & E2).
  rewrite E2.
  destruct (logs_try_dismiss_overlays (fun _ => true) (fun _ _ => eq_refl) _ _ _ E2)
    as (l2 & Hl2 & _).
  unfold bind at 1.
  destruct (steady_try_except
              (bind (do_unit (locator_scroll_into_view_if_needed SEL_SHOW_MORE))
                    (fun _ => ret true))
              (try_except (bind (do_unit evaluate_scrollTo) (fun _ => ret true))
                          (ret false))
              (steady_try_except _ _ (steady_ret false)) w2)
    as (scrolled & w3 & E3).
  rewrite E3.
  assert (Hl3 : exists l3, w3.2 = w2.2 ++ l3).
  { assert (Hlg : logs (fun _ => true)
                    (try_except
                       (bind (do_unit (locator_scroll_into_view_if_needed SEL_SHOW_MORE))
                             (fun _ => ret true))
                       (try_except (bind (do_unit evaluate_scrollTo) (fun _ => ret true))
                                   (@ret P bool false)))).
    { repeat first [ apply logs_ret | apply logs_do_unit; reflexivity
                   | apply logs_try_except | apply logs_bind; [|intros ?] ]. }
    destruct (Hlg _ _ _ E3) as (l3 & Hl3 & _). exists l3. exact Hl3. }
  destruct Hl3 as (l3 & Hl3).
  destruct scrolled; cbn [negb].
  2:{ intros [= <- <-]. exists false, w3, l. split; [reflexivity|].
      split; [exact Hl | discriminate]. }
  unfold bind at 1. unfold try_except at 1. unfold bind at 1.
  rewrite do_unit_run.
  destruct (page_unit (locator_click SEL_SHOW_MORE) w3.1) as [[e|[]] p4];
    cbn [fst snd ret negb].
  { intros [= <- <-]. eexists false, _, l. split; [reflexivity|].
    split; [exact Hl | discriminate]. }
  intros Erun.
  assert (Hlg : logs (fun _ => true)
                  (bind (best_effort (wait_for_function prev))
                     (fun _ => bind (best_effort (wait_for_timeout 600))
                                 (fun _ => @ret P bool true)))).
  { unfold best_effort.
    repeat first [ apply logs_ret | apply logs_do_unit; reflexivity
                 | apply logs_try_except | apply logs_bind; [|intros ?] ]. }
  destruct (Hlg _ _ _ Erun) as (l5 & Hl5 & _). cbn [snd] in Hl5.
  assert (Hr : exists b, r = inr b).
  { destruct (steady_bind (best_effort (wait_for_function prev))
              (fun _ => bind (best_effort (wait_for_timeout 600)) (fun _ => ret true))
              (steady_try_except _ _ (steady_ret tt))
              (fun _ => steady_bind _ _ (steady_try_except _ _ (steady_ret tt))
                          (fun _ => steady_ret true))
              (p4, w3.2 ++ [locator_click SEL_SHOW_MORE]))
      as (b & w5 & E5).
    rewrite E5 in Erun. injection Erun as <- _. exists b. reflexivity. }
  destruct Hr as (b & ->).
  exists b, w', ([locator_count SEL_SHOW_MORE] ++ l2 ++ l3
                   ++ [locator_click SEL_SHOW_MORE] ++ l5).
  split; [reflexivity|]. split.
  - rewrite Hl5, Hl3, Hl2. cbn [snd]. rewrite <- !app_assoc. reflexivity.
  - intros _. rewrite !elem_of_app. right. right. right. left.
    apply list_elem_of_singleton. reflexivity.
Qed.

Lemma click_show_more_swallows_errors_witness :
  exists b w' l,
    click_show_more_and_wait 3 (scenario, []) = (inr b, w') /\
    snd w' = [] ++ l /\
    (b = true -> locator_click SEL_SHOW_MORE ∈ l).
Proof.
  apply (click_show_more_swallows_errors 3 (scenario, []) 1 scenario).
  reflexivity.
Defined.

End HarvesterExtras.

(** ** The harvester: [parse_list] as a whole *)

Section ParseListExtras.

Import KpArticlesSpider.

Lemma round_shape {P : Type} `{Page P} (self : Spider) (st : HarvestState)
      (w : World) (st' : HarvestState) (w' : World) :
  round self st w = (inr (Some st'), w') ->
  exists current,
    (seen st', ordered_urls st')
    = add_new (posts_limit self) current (seen st, ordered_urls st) /\
    clicks st' = clicks st + 1 /\
    stalls st' = if len (ordered_urls st') =? len (ordered_urls st)
                 then stalls st + 1 else 0.
Proof.
  unfold round. unfold bind at 1.
  destruct (do_count SEL_NEWS w) as [[e|prev] w1]; [discriminate|].
  unfold bind at 1.
  destruct (click_show_more_and_wait prev w1) as [[e|[|]] w2];
    [discriminate| |discriminate].
  cbn [negb]. unfold bind at 1.
  destruct (collect_urls_from_dom w2) as [[e|current] w3]; [discriminate|].
  intros [= <- <-]. exists current. cbn [seen ordered_urls clicks stalls].
  split; [|split; reflexivity].
  destruct (add_new (posts_limit self) current (seen st, ordered_urls st)).
  reflexivity.
Qed.

Lemma add_new_bound (limit : Z) (urls : list pystr)
      (so : gset pystr * list pystr) :
  len so.2 < limit -> len (add_new limit urls so).2 <= limit.
Proof.
  revert so; induction urls as [|u rest IH]; intros so Hlt; simpl; [lia|].
  destruct (decide (u ∈ so.1)) as [Hin|Hnin]; [apply IH, Hlt|].
  unfold visit. destruct (decide (u ∈ so.1)); [contradiction|]. cbn [fst snd].
  destruct (Z.leb_spec limit (len (so.2 ++ [u]))) as [Hge|Hlt'].
  - cbn [snd]. unfold len in *. rewrite length_app in *. simpl in *. lia.
  - apply IH. exact Hlt'.
Qed.

Lemma add_new_nonpositive (limit : Z) (urls : list pystr)
      (so : gset pystr * list pystr) :
  limit <= 0 ->
  (length (add_new limit urls so).2 <= S (length so.2))%nat.
Proof.
  intros Hl. revert so; induction urls as [|u rest IH]; intros so; simpl; [lia|].
  destruct (decide (u ∈ so.1)) as [Hin|Hnin]; [apply IH|].
  unfold visit. destruct (decide (u ∈ so.1)); [contradiction|]. cbn [fst snd].
  destruct (Z.leb_spec limit (len (so.2 ++ [u]))) as [Hge|Hlt].
  - cbn [snd]. rewrite length_app. simpl. lia.
  - unfold len in Hlt. lia.
Qed.

Lemma while_loop_bound {P : Type} `{Page P} (self : Spider) (fuel : nat)
      (st : HarvestState) (w : World) (st' : HarvestState) (ex : loop_exit)
      (w' : World) :
  len (ordered_urls st) <= posts_limit self ->
  while_loop self fuel st w = (inr (st', ex), w') ->
  len (ordered_urls st') <= posts_limit self.
Proof.
  revert st w; induction fuel as [|fuel IH]; intros st w Hb; simpl.
  - intros [= <- <- <-]. exact Hb.
  - destruct (loop_cond self st) eqn:Ec.
    2:{ intros [= <- <- <-]. exact Hb. }
    unfold bind. destruct (round self st w) as [[e|[st1|]] w1] eqn:Er;
      [discriminate| |].
    + apply IH. destruct (round_shape _ _ _ _ _ Er) as (current & Hso & _).
      unfold loop_cond in Ec. apply andb_prop in Ec as [Ec _].
      apply andb_prop in Ec as [Ec _]. apply Z.ltb_lt in Ec.
      pose proof (add_new_bound (posts_limit self) current
                    (seen st, ordered_urls st) Ec) as Hbound.
      rewrite <- Hso in Hbound. exact Hbound.
    + intros [= <- <- <-]. exact Hb.
Qed.

Lemma while_loop_counters {P : Type} `{Page P} (self : Spider) (fuel : nat)
      (st : HarvestState) (w : World) (st' : HarvestState) (ex : loop_exit)
      (w' : World) :
  0 <= stalls st <= clicks st ->
  clicks st <= MAX_SHOW_MORE_CLICKS self ->
  stalls st <= STALL_LIMIT self ->
  while_loop self fuel st w = (inr (st', ex), w') ->
  0 <= stalls st' <= clicks st' /\
  clicks st' <= MAX_SHOW_MORE_CLICKS self /\
  stalls st' <= STALL_LIMIT self.
Proof.
  revert st w; induction fuel as [|fuel IH]; intros st w Hs Hc Hl; simpl.
  - intros [= <- <- <-]. auto.
  - destruct (loop_cond self st) eqn:Ec.
    2:{ intros [= <- <- <-]. auto. }
    unfold bind. destruct (round self st w) as [[e|[st1|]] w1] eqn:Er;
      [discriminate| |].
    + destruct (round_shape _ _ _ _ _ Er) as (current & _ & Hcl & Hst).
      unfold loop_cond in Ec. apply andb_prop in Ec as [Ec Ec3].
      apply andb_prop in Ec as [_ Ec2].
      apply Z.ltb_lt in Ec2. apply Z.ltb_lt in Ec3.
      apply IH; rewrite ?Hcl, ?Hst;
        destruct (len (ordered_urls st1) =? len (ordered_urls st)); lia.
    + intros [= <- <- <-]. auto.
Qed.

Lemma harvest_start {P : Type} `{Page P} (self : Spider) (fuel : nat)
      (w : World) (st : HarvestState) (ex : loop_exit) (w' : World) :
  harvest self fuel w = (inr (st, ex), w') ->
  exists urls w1,
    while_loop self fuel
      {| seen := (add_new (posts_limit self) urls (∅, [])).1;
         ordered_urls := (add_new (posts_limit self) urls (∅, [])).2;
         clicks := 0; stalls := 0 |} w1 = (inr (st, ex), w').
Proof.
  unfold harvest. unfold bind at 1.
  destruct (best_effort (wait_for_selector SEL_SHOW_MORE) w) as [[e|[]] w0];
    [discriminate|].
  unfold bind at 1.
  destruct (collect_urls_from_dom w0) as [[e|urls] w1]; [discriminate|].
  intros Hrun. exists urls, w1. exact Hrun.
Qed.

Lemma slice_to_prefix {A : Type} (l : list A) (n : Z) :
  slice_to l n `prefix_of` l.
Proof.
  unfold slice_to. destruct (0 <=? n); apply prefix_take.
Qed.

(** X8. The URLs [parse_list] yields requests for hold no duplicate and stand
    in discovery order: they are an initial part of the first occurrences of
    the links the session has shown. *)
Theorem parse_list_yields_distinct {P : Type} `{Page P}
        (self : Spider) (p : P) (urls : list pystr) (w' : World) :
  parse_list self (p, []) = (inr (Some urls), w') ->
  NoDup urls /\ urls `prefix_of` dict_fromkeys (observed (snd w')).
Proof.
  intros Hrun.
  destruct (parse_list_returns _ _ _ _ Hrun) as (st & ex & w1 & Eh & _ & Hr & Hlog).
  injection Hr as ->.
  destruct (harvest_spec _ _ _ _ _ _ Eh) as (_ & Hp & _).
  assert (Hpre : slice_to (ordered_urls st) (posts_limit self)
                 `prefix_of` dict_fromkeys (observed (snd w'))).
  { rewrite Hlog, observed_app. simpl. rewrite app_nil_r.
    etransitivity; [apply slice_to_prefix | exact Hp]. }
  split; [|exact Hpre].
  destruct Hpre as [k Hk].
  pose proof (NoDup_dict_fromkeys (observed (snd w'))) as Hd.
  rewrite Hk in Hd. apply NoDup_app in Hd. tauto.
Qed.

Lemma parse_list_yields_distinct_witness :
  exists urls w',
    parse_list (init (Some 5)) (scenario, []) = (inr (Some urls), w') /\
    NoDup urls /\ urls `prefix_of` dict_fromkeys (observed (snd w')).
Proof.
  destruct (parse_list (init (Some 5)) (scenario, [])) as [[e|[urls|]] w'] eqn:E;
    [vm_compute in E; discriminate| |vm_compute in E; discriminate].
  exists urls, w'. split; [reflexivity|].
  exact (parse_list_yields_distinct (init (Some 5)) scenario urls w' E).
Defined.

(** X9. With a limit of at least 1 the harvest never collects more URLs than
    the limit, so the final truncation drops nothing: [parse_list] yields
    exactly the URLs collected. *)
Theorem parse_list_truncation_idle {P : Type} `{Page P}
        (self : Spider) (p : P) (urls : list pystr) (w' : World) :
  1 <= posts_limit self ->
  parse_list self (p, []) = (inr (Some urls), w') ->
  exists st ex w1,
    harvest self (enough_fuel self) (p, []) = (inr (st, ex), w1) /\
    len (ordered_urls st) <= posts_limit self /\
    urls = ordered_urls st.
Proof.
  intros Hn Hrun.
  destruct (parse_list_returns _ _ _ _ Hrun) as (st & ex & w1 & Eh & _ & Hr & _).
  injection Hr as ->. exists st, ex, w1. split; [exact Eh|].
  assert (Hb : len (ordered_urls st) <= posts_limit self).
  { destruct (harvest_start _ _ _ _ _ _ Eh) as (u0 & w0 & Hw).
    eapply while_loop_bound; [|exact Hw]. cbn [ordered_urls].
    apply add_new_bound. change (0 < posts_limit self). lia. }
  split; [exact Hb|].
  unfold slice_to. destruct (Z.leb_spec 0 (posts_limit self)); [|lia].
  apply firstn_all2. unfold len in Hb. lia.
Qed.

Lemma parse_list_truncation_idle_witness :
  exists urls w' st ex w1,
    parse_list (init (Some 5)) (scenario, []) = (inr (Some urls), w') /\
    harvest (init (Some 5)) (enough_fuel (init (Some 5))) (scenario, [])
    = (inr (st, ex), w1) /\
    len (ordered_urls st) <= 5 /\
    urls = ordered_urls st.
Proof.
  destruct (parse_list (init (Some 5)) (scenario, [])) as [[e|[urls|]] w'] eqn:E;
    [vm_compute in E; discriminate| |vm_compute in E; discriminate].
  destruct (parse_list_truncation_idle (init (Some 5)) scenario urls w'
              ltac:(simpl; lia) E) as (st & ex & w1 & Hh).
  exists urls, w', st, ex, w1. split; [reflexivity | exact Hh].
Defined.

(** X10. With a limit of zero or less [parse_list] yields no request and
    never enters the [while]: the page is waited on, read once and closed,
    and the reveal-more control is not touched. *)
Theorem parse_list_nonpositive_limit {P : Type} `{Page P}
        (self : Spider) (p : P) (r : option (list pystr)) (w' : World) :
  posts_limit self <= 0 ->
  parse_list self (p, []) = (inr r, w') ->
  r = Some [] /\
  exists answer,
    snd w' = [wait_for_selector SEL_SHOW_MORE;
              eval_on_selector_all SEL_NEWS answer; close].
Proof.
  intros Hn. unfold parse_list, parse_list_fuel, harvest, enough_fuel.
  unfold bind at 1. unfold bind at 1.
  destruct (best_effort_returns (wait_for_selector SEL_SHOW_MORE) (p, []))
    as (p0 & ->).
  unfold bind at 1. unfold collect_urls_from_dom, bind at 1, do_hrefs.
  cbn [fst snd app].
  destruct (page_hrefs SEL_NEWS p0) as [[e|hrefs] p1]; [discriminate|].
  cbn [ret].
  set (so := add_new (posts_limit self) (normalize_all (default [] hrefs)) (∅, [])).
  assert (Hlen : (length so.2 <= 1)%nat)
    by (apply (add_new_nonpositive _ _ (∅, []) Hn)).
  cbn [while_loop].
  assert (Hc : loop_cond self {| seen := so.1; ordered_urls := so.2;
                                 clicks := 0; stalls := 0 |} = false).
  { unfold loop_cond. cbn [ordered_urls].
    destruct (Z.ltb_spec (len so.2) (posts_limit self)); [|reflexivity].
    unfold len in *. lia. }
  rewrite Hc. cbn [ret]. unfold bind at 1.
  match goal with
  | |- context [best_effort close ?w0] =>
      destruct (best_effort_returns close w0) as (p2 & ->)
  end.
  cbn [ret snd ordered_urls app].
  assert (Hslice : slice_to so.2 (posts_limit self) = []).
  { unfold slice_to. destruct (Z.leb_spec 0 (posts_limit self)).
    - replace (posts_limit self) with 0 by lia. reflexivity.
    - replace (Z.to_nat (len so.2 + posts_limit self)) with 0%nat
        by (unfold len; lia).
      reflexivity. }
  rewrite Hslice. unfold bind, pure_result. cbn [yield_requests].
  intros [= <- <-]. split; [reflexivity|]. eexists. reflexivity.
Qed.

Lemma parse_list_nonpositive_limit_witness :
  exists r w',
    parse_list (init (Some 0)) (scenario, []) = (inr r, w') /\
    r = Some [] /\
    exists answer,
      snd w' = [wait_for_selector SEL_SHOW_MORE;
                eval_on_selector_all SEL_NEWS answer; close].
Proof.
  destruct (parse_list (init (Some 0)) (scenario, [])) as [[e|r] w'] eqn:E;
    [vm_compute in E; discriminate|].
  exists r, w'. split; [reflexivity|].
  exact (parse_list_nonpositive_limit (init (Some 0)) scenario r w'
           ltac:(simpl; lia) E).
Defined.

(** X11. The two safety bounds are never exceeded: whenever the [while] is
    left, and at its head after any number of passes, the click count is at
    most [MAX_SHOW_MORE_CLICKS], the stall count at most [STALL_LIMIT], and
    the stall count is between zero and the click count. *)
Theorem harvest_counters_bounded {P : Type} `{Page P}
        (self : Spider) (fuel : nat) (w : World)
        (st : HarvestState) (ex : loop_exit) (w' : World) :
  0 <= MAX_SHOW_MORE_CLICKS self ->
  0 <= STALL_LIMIT self ->
  harvest self fuel w = (inr (st, ex), w') ->
  0 <= stalls st <= clicks st /\
  clicks st <= MAX_SHOW_MORE_CLICKS self /\
  stalls st <= STALL_LIMIT self.
Proof.
  intros Hm Hs Hrun.
  destruct (harvest_start _ _ _ _ _ _ Hrun) as (urls & w1 & Hw).
  eapply while_loop_counters; [| | |exact Hw]; cbn [clicks stalls]; lia.
Qed.

Lemma harvest_counters_bounded_witness :
  exists st ex w',
    harvest (init (Some 50)) 20 (scenario, []) = (inr (st, ex), w') /\
    0 <= stalls st <= clicks st /\ clicks st <= 10000 /\ stalls st <= 10.
Proof.
  destruct (harvest (init (Some 50)) 20 (scenario, [])) as [[e|[st ex]] w'] eqn:E;
    [vm_compute in E; discriminate|].
  exists st, ex, w'. split; [reflexivity|].
  exact (harvest_counters_bounded (init (Some 50)) 20 (scenario, []) st ex w'
           ltac:(simpl; lia) ltac:(simpl; lia) E).
Defined.

Lemma closed_app (l1 l2 : list call) :
  closed (l1 ++ l2) = closed l1 || closed l2.
Proof. unfold closed. apply existsb_app. Qed.

(** X12. When [parse_list] returns, [page.close()] has been called exactly
    once, and it is the last call made on the page. *)
Theorem parse_list_closes_last {P : Type} `{Page P}
        (self : Spider) (p : P) (r : option (list pystr)) (w' : World) :
  parse_list self (p, []) = (inr r, w') ->
  exists l, snd w' = l ++ [close] /\ closed l = false.
Proof.
  intros Hrun.
  destruct (parse_list_returns _ _ _ _ Hrun) as (st & ex & w1 & Eh & _ & _ & Hlog).
  destruct (logs_harvest not_close not_close_calls _ _ _ _ _ Eh) as (l & Hl & Hok).
  exists (snd w1). split; [exact Hlog|].
  rewrite Hl. cbn [snd app]. apply not_close_closed, Hok.
Qed.

Lemma parse_list_closes_last_witness :
  exists r w' l,
    parse_list (init (Some 5)) (scenario, []) = (inr r, w') /\
    snd w' = l ++ [close] /\ closed l = false.
Proof.
  destruct (parse_list (init (Some 5)) (scenario, [])) as [[e|r] w'] eqn:E;
    [vm_compute in E; discriminate|].
  destruct (parse_list_closes_last (init (Some 5)) scenario r w' E) as (l & Hl).
  exists r, w', l. split; [reflexivity | exact Hl].
Defined.

(** A session showing a link without scheme, as no browser resolves one. *)
Definition schemeless_session : Script :=
  [ inr [py "/online/news/1/"] ].

(** X13. An exception leaves [parse_list] in one of two ways: raised while
    harvesting (by the link query or a count), and then [page.close()] has
    not been called; or raised by the construction of a request for a
    collected link without scheme, after the page was closed as its last
    call. *)
Theorem parse_list_raises {P : Type} `{Page P}
        (self : Spider) (p : P) (e : exn) (w' : World) :
  parse_list self (p, []) = (inl e, w') ->
  (harvest self (enough_fuel self) (p, []) = (inl e, w') /\
   closed (snd w') = false) \/
  (exists st ex w1,
      harvest self (enough_fuel self) (p, []) = (inr (st, ex), w1) /\
      yield_requests (slice_to (ordered_urls st) (posts_limit self)) = inl e /\
      snd w' = snd w1 ++ [close] /\ closed (snd w1) = false).
Proof.
  unfold parse_list, parse_list_fuel. unfold bind at 1.
  destruct (harvest self (enough_fuel self) (p, [])) as [[e0|[st ex]] w1] eqn:Eh.
  - intros [= <- <-]. left. split; [reflexivity|].
    destruct (logs_harvest not_close not_close_calls _ _ _ _ _ Eh) as (l & Hl & Hok).
    rewrite Hl. cbn [snd app]. apply not_close_closed, Hok.
  - intros Hrun. right. exists st, ex, w1. split; [reflexivity|].
    destruct (logs_harvest not_close not_close_calls _ _ _ _ _ Eh) as (l & Hl & Hok).
    assert (Hopen : closed (snd w1) = false)
      by (rewrite Hl; cbn [snd app]; apply not_close_closed, Hok).
    destruct (best_effort_returns close w1) as (p2 & Hc).
    destruct ex; [| |discriminate]; unfold bind at 1 in Hrun; rewrite Hc in Hrun;
      unfold bind, pure_result, ret in Hrun;
      destruct (yield_requests (slice_to (ordered_urls st) (posts_limit self)))
        as [e1|requests]; try discriminate;
      injection Hrun as <- <-; auto.
Qed.

Lemma parse_list_raises_witness :
  exists e w',
    parse_list (init None) (schemeless_session, []) = (inl e, w') /\
    e = OtherException "ValueError" /\ closed (snd w') = true.
Proof.
  destruct (parse_list (init None) (schemeless_session, [])) as [[e|r] w'] eqn:E;
    [|vm_compute in E; discriminate].
  exists e, w'. split; [reflexivity|].
  destruct (parse_list_raises (init None) schemeless_session e w' E)
    as [[Eh _] | (st & ex & w1 & Eh & Ey & Hlog & _)].
  - vm_compute in Eh. discriminate.
  - split.
    + vm_compute in Eh. injection Eh as <- <- <-. vm_compute in Ey. congruence.
    + rewrite Hlog. apply closed_snoc.
Defined.

End ParseListExtras.

(** ** The extractor *)

Section ExtractorExtras.

Lemma clean_text_fixed (s : option pystr) :
  clean_text (Some (clean_text s)) = clean_text s.
Proof.
  unfold clean_text at 1. simpl or_empty.
  rewrite (re_sub_ws_fixed _ (clean_text_collapsed s)).
  unfold clean_text. apply strip_idem.
Qed.

(** An entry of a cleaned list: not empty, and its own cleaned form. *)
Definition clean_entry (x : pystr) : Prop :=
  x <> [] /\ clean_text (Some x) = x.

Lemma clean_all_entries xs : Forall clean_entry (clean_all xs).
Proof.
  induction xs as [|x xs IH]; simpl; [constructor|].
  destruct (clean_text (Some x)) eqn:E; simpl; [exact IH|].
  constructor; [|exact IH]. split; [discriminate|].
  rewrite <- E. apply clean_text_fixed.
Qed.


Lemma Forall_dict_fromkeys (Q : pystr -> Prop) us :
  Forall Q us -> Forall Q (dict_fromkeys us).
Proof.
  intros HQ. apply Forall_forall. intros x Hx.
  apply (proj1 (elem_of_dict_fromkeys us x)) in Hx.
  exact (proj1 (Forall_forall Q us) HQ x Hx).
Qed.

(** X14. The item [parse_article] yields has all nine fields of
    [KpArticleItem] set and no other, and its [header_photo_base64] is
    [None]. *)
Theorem parse_article_fields (r : Response) :
  dom (parse_article r) = KpArticleItem_fields /\
  parse_article r !! "header_photo_base64" = Some VNone.
Proof.
  split.
  - unfold parse_article, KpArticleItem_fields, Item. cbv zeta.
    rewrite !dom_insert_L, dom_empty_L. set_solver.
  - unfold parse_article. cbv zeta. simplify_map_eq. reflexivity.
Qed.



(** X16. In both branches of both fields, every keyword and every author of
    the item is a non-empty string in cleaned form. *)
Theorem parse_article_lists_clean (r : Response) :
  exists keywords authors,
    parse_article r !! "keywords" = Some (VList keywords) /\
    parse_article r !! "authors" = Some (VList authors) /\
    Forall clean_entry keywords /\
    Forall clean_entry authors.
Proof.
  exists (extract_keywords r), (extract_authors r).
  split; [unfold parse_article; cbv zeta; simplify_map_eq; reflexivity|].
  split; [unfold parse_article; cbv zeta; simplify_map_eq; reflexivity|].
  split.
  - unfold extract_keywords. destruct (truthy (meta_keywords r));
      apply clean_all_entries.
  - unfold extract_authors. destruct (truthy (meta_author r)).
    + apply clean_all_entries.
    + apply Forall_dict_fromkeys, clean_all_entries.
Qed.

(** X17. The [header_photo_url] of the item is [None] or a non-empty string
    in cleaned form, never the empty string; it is [None] exactly when the
    [og:image] content is absent or blank. *)
Theorem parse_article_header_photo_url (r : Response) :
  (clean_text (og_image r) = [] /\
   parse_article r !! "header_photo_url" = Some VNone) \/
  (exists u, clean_text (og_image r) = u /\ clean_entry u /\
             parse_article r !! "header_photo_url" = Some (VStr u)).
Proof.
  assert (E : parse_article r !! "header_photo_url"
              = Some (extract_header_photo_url r))
    by (unfold parse_article; cbv zeta; simplify_map_eq; reflexivity).
  rewrite E. unfold extract_header_photo_url.
  destruct (clean_text (og_image r)) as [|c u] eqn:Ec.
  - left. split; reflexivity.
  - right. exists (c :: u). split; [reflexivity|]. split; [|reflexivity].
    split; [discriminate|]. rewrite <- Ec. apply clean_text_fixed.
Qed.

(** An article whose author-labelled regions name one author twice. *)
Definition response_regions : Response :=
  {| url := py "https://www.kp.ru/online/news/1/";
     h1_text := Some (py "T"); og_title := None;
     meta_description := None; og_description := None;
     published_time := None; time_datetime := None;
     og_image := None;
     meta_keywords := None; tag_texts := [];
     meta_author := None;
     author_texts := [py " A "; py "B"; py "  "; py "A"; py "C"];
     body_texts := [py " first  line "; py "  "; py "second"] |}.



(** *** Lines of the article text *)

Lemma split_on_free (sep : N -> bool) (x : pystr) :
  Forall (fun c => sep c = false) x -> split_on sep x = [x].
Proof.
  induction 1 as [|c x Hc _ IH]; [reflexivity|].
  simpl. rewrite Hc, IH. reflexivity.
Qed.

Lemma split_on_app_sep (sep : N -> bool) (x : pystr) (c : N) (rest : pystr) :
  Forall (fun c => sep c = false) x -> sep c = true ->
  split_on sep (x ++ c :: rest) = x :: split_on sep rest.
Proof.
  intros Hx Hc. induction Hx as [|d x Hd _ IH]; simpl.
  - rewrite Hc. reflexivity.
  - rewrite Hd, IH. reflexivity.
Qed.

Lemma split_on_join (sep : N -> bool) (c : N) (parts : list pystr) :
  sep c = true ->
  parts <> [] ->
  Forall (Forall (fun d => sep d = false)) parts ->
  split_on sep (join [c] parts) = parts.
Proof.
  intros Hc Hne Hparts. induction Hparts as [|x parts Hx Hrest IH]; [contradiction|].
  destruct parts as [|y parts].
  - simpl. apply split_on_free, Hx.
  - change (join [c] (x :: y :: parts)) with (x ++ c :: join [c] (y :: parts)).
    rewrite (split_on_app_sep sep x c _ Hx Hc).
    f_equal. apply IH. discriminate.
Qed.

Lemma clean_text_no_newline (s : option pystr) :
  Forall (fun d => N.eqb NEWLINE d = false) (clean_text s).
Proof.
  apply Forall_forall. intros d Hd.
  destruct (N.eqb_spec NEWLINE d) as [<-|]; [|reflexivity].
  pose proof (collapsed_only_spaces _ _ (clean_text_collapsed s) Hd eq_refl).
  discriminate.
Qed.

Lemma clean_all_no_newline xs :
  Forall (Forall (fun d => N.eqb NEWLINE d = false)) (clean_all xs).
Proof.
  induction xs as [|x xs IH]; [constructor|]. cbn [clean_all].
  destruct (truthy (Some (clean_text (Some x)))); [|exact IH].
  constructor; [apply clean_text_no_newline | exact IH].
Qed.

(** X19. The article text is empty when the content body has no text that
    survives cleaning; otherwise its lines, split at the line feed, are
    exactly the cleaned non-empty text nodes, in order. *)
Theorem article_text_lines (r : Response) :
  (clean_all (body_texts r) = [] -> extract_article_text r = []) /\
  (clean_all (body_texts r) <> [] ->
   split_on (N.eqb NEWLINE) (extract_article_text r) = clean_all (body_texts r)).
Proof.
  unfold extract_article_text. split.
  - intros ->. reflexivity.
  - intros Hne. apply split_on_join;
      [reflexivity | exact Hne | apply clean_all_no_newline].
Qed.

Lemma article_text_lines_witness :
  split_on (N.eqb NEWLINE) (extract_article_text response_regions)
  = [py "first line"; py "second"].
Proof.
  rewrite (proj2 (article_text_lines response_regions));
    [vm_compute; reflexivity | vm_compute; discriminate].
Defined.

End ExtractorExtras.

(** ** The image post-processor *)

Section PhotoExtras.

Import PhotoDownloaderPipeline.

(** A record without header photo. *)
Definition item_without_photo : Item :=
  <[ "header_photo_url" := VNone ]>
  (<[ "title" := VStr (py "T") ]>
  (<[ "source_url" := VStr (py "https://www.kp.ru/online/news/2/") ]> ∅)).

(** X20. For a record whose header photo URL is missing, [None] or empty,
    [process_item] sets the encoded photo to [None] and touches nothing
    else, whatever the network and the image library would do: nothing is
    fetched. *)
Theorem process_item_without_url (env : Env) (self : t) (item : Item) :
  value_truthy (item_get item "header_photo_url") = false ->
  process_item env self item = inr (<[ "header_photo_base64" := VNone ]> item).
Proof. intros Hurl. unfold process_item. rewrite Hurl. reflexivity. Qed.

Lemma process_item_without_url_witness :
  process_item (server_answering 200) default item_without_photo
  = inr (<[ "header_photo_base64" := VNone ]> item_without_photo).
Proof.
  apply (process_item_without_url (server_answering 200) default item_without_photo).
  reflexivity.
Defined.

(** X21. Whenever [process_item] returns, the record it returns has its
    encoded-photo field set, differs from the record it was given in no field
    other than the encoded photo and the photo URL, and its photo URL is the
    one given or [None]. *)
Theorem process_item_frame (env : Env) (self : t) (item item' : Item) :
  process_item env self item = inr item' ->
  is_Some (item' !! "header_photo_base64") /\
  (forall k, k <> "header_photo_base64"%string -> k <> "header_photo_url"%string ->
             item' !! k = item !! k) /\
  (item' !! "header_photo_url" = item !! "header_photo_url" \/
   item' !! "header_photo_url" = Some VNone).
Proof.
  unfold process_item.
  destruct (value_truthy (item_get item "header_photo_url")).
  - destruct (_download_photo_to_base64 env self (item_get item "header_photo_url"))
      as [[| | | |]|s]; try discriminate; intros [= <-].
    + split; [eexists; apply lookup_insert_eq|]. split.
      * intros k H1 H2. etransitivity; apply lookup_insert_ne; congruence.
      * right. etransitivity; [apply lookup_insert_ne; discriminate|].
        apply lookup_insert_eq.
    + split; [eexists; apply lookup_insert_eq|]. split.
      * intros k H1 _. apply lookup_insert_ne. congruence.
      * left. apply lookup_insert_ne. discriminate.
  - intros [= <-]. split; [eexists; apply lookup_insert_eq|]. split.
    + intros k H1 _. apply lookup_insert_ne. congruence.
    + left. apply lookup_insert_ne. discriminate.
Qed.

Lemma process_item_frame_witness :
  exists item',
    process_item (server_answering 404) default item_with_photo = inr item' /\
    is_Some (item' !! "header_photo_base64") /\
    (forall k, k <> "header_photo_base64"%string -> k <> "header_photo_url"%string ->
               item' !! k = item_with_photo !! k).
Proof.
  destruct (process_item (server_answering 404) default item_with_photo)
    as [e|item'] eqn:E; [vm_compute in E; discriminate|].
  exists item'. split; [reflexivity|].
  destruct (process_item_frame (server_answering 404) default item_with_photo
              item' E) as (H1 & H2 & _).
  split; assumption.
Defined.

(** X22. A record leaves [process_item] with a non-empty encoded photo only
    if it came with a photo URL, the fetch of that URL was answered with
    status 200, and the URL is still in the record. *)
Theorem process_item_photo_only_if_fetched
        (env : Env) (self : t) (item item' : Item) (c : N) (s : pystr) :
  process_item env self item = inr item' ->
  item' !! "header_photo_base64" = Some (VStr (c :: s)) ->
  value_truthy (item_get item "header_photo_url") = true /\
  item' !! "header_photo_url" = item !! "header_photo_url" /\
  exists response,
    session_get env (item_get item "header_photo_url") = inr response /\
    status response = 200.
Proof.
  unfold process_item.
  destruct (value_truthy (item_get item "header_photo_url")).
  2:{ intros [= <-] Hp.
      pose proof (lookup_insert_eq item "header_photo_base64" VNone) as E.
      unfold Item in *. rewrite E in Hp. discriminate. }
  unfold _download_photo_to_base64.
  destruct (session_get env (item_get item "header_photo_url"))
    as [e|response] eqn:Eget; cbn [rbind].
  { destruct e; try discriminate. intros [= <-] Hp.
    pose proof (lookup_insert_eq (<[ "header_photo_url" := VNone ]> item)
                  "header_photo_base64" VNone) as E.
    unfold Item in *. rewrite E in Hp. discriminate. }
  destruct (Z.eqb_spec (status response) 200) as [Hst|Hst]; cbn [negb].
  2:{ intros [= <-] Hp.
      pose proof (lookup_insert_eq item "header_photo_base64" (VStr [])) as E.
      unfold Item in *. rewrite E in Hp. discriminate. }
  intros Hrun Hp. split; [reflexivity|]. split.
  - destruct (rbind (read response)
                (fun content => rbind (compress_image env self content)
                   (fun compressed_bytes => inr (b64encode env compressed_bytes))))
      as [e|photo].
    + destruct e; try discriminate. injection Hrun as <-.
      pose proof (lookup_insert_eq (<[ "header_photo_url" := VNone ]> item)
                    "header_photo_base64" VNone) as E.
      unfold Item in *. rewrite E in Hp. discriminate.
    + injection Hrun as <-. apply lookup_insert_ne. discriminate.
  - exists response. split; [reflexivity | exact Hst].
Qed.

(** A server that answers 200 with an image Pillow can read. *)
Definition server_with_image : Env :=
  {| Img := unit;
     session_get := fun _ => inr {| status := 200; read := inr [] |};
     Image_open := fun _ => inr tt;
     mode := fun _ => "RGBA"%string;
     convert_RGB := fun img => inr img;
     save_JPEG := fun _ _ => inr [];
     b64encode := fun _ => py "/9j/4AAQ" |}.

Lemma process_item_photo_only_if_fetched_witness :
  exists item',
    process_item server_with_image default item_with_photo = inr item' /\
    value_truthy (item_get item_with_photo "header_photo_url") = true /\
    item' !! "header_photo_url" = item_with_photo !! "header_photo_url".
Proof.
  destruct (process_item server_with_image default item_with_photo)
    as [e|item'] eqn:E; [vm_compute in E; discriminate|].
  exists item'. split; [reflexivity|].
  destruct (process_item_photo_only_if_fetched server_with_image default
              item_with_photo item' 47%N (py "9j/4AAQ") E) as (H1 & H2 & _).
  - injection E as <-. vm_compute. reflexivity.
  - split; assumption.
Defined.

(** X23. Only [InvalidUrlClientError] is caught: any other exception raised
    while the photo is fetched, read, decoded or re-encoded leaves
    [process_item], and the record is not returned. *)
Theorem process_item_other_errors_escape
        (env : Env) (self : t) (item : Item) (e : exn) :
  value_truthy (item_get item "header_photo_url") = true ->
  _download_photo_to_base64 env self (item_get item "header_photo_url") = inl e ->
  e <> InvalidUrlClientError ->
  process_item env self item = inl e.
Proof.
  intros Hurl Hdl Hne. unfold process_item. rewrite Hurl, Hdl.
  destruct e; [contradiction | reflexivity..].
Qed.

(** A server that cannot be reached. *)
Definition server_unreachable : Env :=
  {| Img := unit;
     session_get := fun _ => inl (OtherException "aiohttp.ClientConnectorError");
     Image_open := fun _ => inr tt;
     mode := fun _ => "RGB"%string;
     convert_RGB := fun img => inr img;
     save_JPEG := fun _ _ => inr [];
     b64encode := fun _ => [] |}.

Lemma process_item_other_errors_escape_witness :
  process_item server_unreachable default item_with_photo
  = inl (OtherException "aiohttp.ClientConnectorError").
Proof.
  apply (process_item_other_errors_escape server_unreachable default
           item_with_photo (OtherException "aiohttp.ClientConnectorError"));
    [reflexivity | reflexivity | discriminate].
Defined.

End PhotoExtras.

(** ** The storage sink *)

Section MongoExtras.

Import MongoPipeline.

Lemma existsb_has_key_false field v (c : Collection) :
  existsb (has_key field v) c = false <-> v ∉ List.map (index_key field) c.
Proof.
  rewrite <- not_true_iff_false, existsb_has_key. split.
  - intros Hno Hin. apply list_elem_of_fmap in Hin as (d & -> & Hd).
    apply Hno. exists d. split; [exact Hd | reflexivity].
  - intros Hno (d & Hd & Hk). apply Hno. rewrite <- Hk.
    apply list_elem_of_fmap. exists d. split; [reflexivity | exact Hd].
Qed.

Lemma NoDup_keys_snoc field (c : Collection) (d : Doc) :
  NoDup (List.map (index_key field) c) ->
  existsb (has_key field (index_key field d)) c = false ->
  NoDup (List.map (index_key field) (c ++ [d])).
Proof.
  intros Hnd Hno. apply existsb_has_key_false in Hno.
  rewrite map_app. simpl. apply NoDup_app. split; [exact Hnd|]. split.
  - intros x Hx Hx'. apply list_elem_of_singleton in Hx'. subst. contradiction.
  - apply NoDup_singleton.
Qed.

Lemma indexes_hold_snoc (c : Collection) (d : Doc) :
  indexes_hold c -> violates_unique c d = false -> indexes_hold (c ++ [d]).
Proof.
  intros [Hid Hurl] Hv. unfold violates_unique in Hv.
  apply orb_false_iff in Hv as [Hv1 Hv2].
  split; apply NoDup_keys_snoc; assumption.
Qed.

Lemma NoDup_keys_replace field (pre rest : Collection) (d d' : Doc) :
  NoDup (List.map (index_key field) (pre ++ d :: rest)) ->
  index_key field d' ∉ List.map (index_key field) (pre ++ rest) ->
  NoDup (List.map (index_key field) (pre ++ d' :: rest)).
Proof.
  intros Hnd Hno.
  rewrite <- (Permutation_middle pre rest d) in Hnd. simpl in Hnd.
  apply NoDup_cons in Hnd as [_ Hnd].
  rewrite <- (Permutation_middle pre rest d'). simpl.
  apply NoDup_cons. split; assumption.
Qed.

(** What a successful [$set] update has done. *)
Lemma update_first_shape v (fields : Doc) (before c c' : Collection) :
  update_first v fields before c = Some (inr c') ->
  exists pre d rest,
    c = pre ++ d :: rest /\
    index_key "source_url" d = v /\
    c' = before ++ pre ++ apply_set fields d :: rest /\
    index_key "_id" (apply_set fields d) = index_key "_id" d /\
    existsb (has_key "source_url" (index_key "source_url" (apply_set fields d)))
            (before ++ pre ++ rest) = false.
Proof.
  revert before. induction c as [|x c IH]; intros before; simpl; [discriminate|].
  unfold has_key at 1.
  destruct (decide (index_key "source_url" x = v)) as [Hx|Hx].
  - rewrite bool_decide_eq_true_2 by exact Hx.
    destruct (decide (index_key "_id" (apply_set fields x) = index_key "_id" x))
      as [Hid|Hid].
    + rewrite bool_decide_eq_true_2 by exact Hid. cbn [negb].
      destruct (existsb _ (before ++ c)) eqn:Ee; [discriminate|].
      intros [= <-]. exists [], x, c. simpl. auto.
    + rewrite bool_decide_eq_false_2 by exact Hid. discriminate.
  - rewrite bool_decide_eq_false_2 by exact Hx.
    intros Hrun. destruct (IH _ Hrun) as (pre & d & rest & -> & Hk & -> & Hid & He).
    exists (x :: pre), d, rest. rewrite <- !app_assoc in *. simpl in *. auto.
Qed.

(** What [process_item] can do to the collection: nothing, add one document
    that breaks no unique index, or update in place the document stored under
    the record's [source_url]. *)
Lemma process_item_collection now oid oid' (c : Collection) (item : Item)
      (r : result Item) (c' : Collection) :
  process_item now oid oid' c item = (r, c') ->
  c' = c \/
  (exists d, violates_unique c d = false /\ c' = c ++ [d]) \/
  (exists fields d pre rest,
      c = pre ++ d :: rest /\
      index_key "source_url" d = item_get item "source_url" /\
      c' = pre ++ apply_set fields d :: rest /\
      index_key "_id" (apply_set fields d) = index_key "_id" d /\
      existsb (has_key "source_url" (index_key "source_url" (apply_set fields d)))
              (pre ++ rest) = false).
Proof.
  unfold process_item, insert_one.
  set (doc := match make_doc now item !! "_id" with
              | Some _ => make_doc now item
              | None => <[ "_id" := VObjectId oid ]> (make_doc now item)
              end).
  assert (Hurl : doc !! "source_url" = item !! "source_url").
  { unfold doc. destruct (make_doc now item !! "_id").
    - apply make_doc_lookup_ne; discriminate.
    - etransitivity; [apply lookup_insert_ne; discriminate|].
      apply make_doc_lookup_ne; discriminate. }
  destruct (violates_unique c doc) eqn:Ev.
  2:{ intros [= <- <-]. right. left. exists doc. split; [exact Ev | reflexivity]. }
  destruct (doc !! "source_url") as [v|] eqn:Ed.
  2:{ intros [= <- <-]. left. reflexivity. }
  unfold update_one_set_upsert.
  destruct (update_first v doc [] c) as [[e|c1]|] eqn:Eu.
  - intros [= <- <-]. left. reflexivity.
  - intros [= <- <-]. right. right.
    destruct (update_first_shape _ _ _ _ _ Eu) as (pre & d & rest & Hc & Hk & Hc' & Hid & He).
    exists doc, d, pre, rest. simpl in Hc', He.
    split; [exact Hc|]. split; [|split; [exact Hc'|split; assumption]].
    rewrite Hk. unfold item_get. rewrite <- Hurl. reflexivity.
  - match goal with
    | |- context [violates_unique c ?d0] => destruct (violates_unique c d0) eqn:Ev2
    end.
    + intros [= <- <-]. left. reflexivity.
    + intros [= <- <-]. right. left. eexists. split; [exact Ev2 | reflexivity].
Qed.

(** X25. The unique indexes on [_id] and on [source_url] hold of the
    collection after [process_item] whenever they held before, for every
    record and every outcome: the sink never stores two documents under one
    [source_url]. *)
Theorem process_item_keeps_indexes
        (now : pystr) (oid oid' : N) (c : Collection) (item : Item) :
  indexes_hold c ->
  indexes_hold (snd (process_item now oid oid' c item)).
Proof.
  intros Hc.
  destruct (process_item now oid oid' c item) as [r c'] eqn:E. cbn [snd].
  destruct (process_item_collection _ _ _ _ _ _ _ E)
    as [-> | [(d & Hv & ->) | (fields & d & pre & rest & -> & _ & -> & Hid & He)]].
  - exact Hc.
  - apply indexes_hold_snoc; assumption.
  - destruct Hc as [Hc1 Hc2]. split.
    + rewrite map_app in *. simpl in *. rewrite Hid. exact Hc1.
    + eapply NoDup_keys_replace; [exact Hc2|].
      apply existsb_has_key_false, He.
Qed.

Lemma process_item_keeps_indexes_witness :
  indexes_hold
    (snd (process_item later_time 2 3 [stored_article] later_parse)).
Proof.
  apply (process_item_keeps_indexes later_time 2 3 [stored_article] later_parse).
  split; simpl; apply NoDup_singleton.
Defined.

(** X26. [process_item] deletes nothing and adds at most one document, and
    every document stored under another [source_url] than the record's is
    still there afterwards, unchanged. *)
Theorem process_item_keeps_others
        (now : pystr) (oid oid' : N) (c : Collection) (item : Item)
        (r : result Item) (c' : Collection) :
  process_item now oid oid' c item = (r, c') ->
  (length c <= length c' <= S (length c))%nat /\
  forall d, d ∈ c ->
            index_key "source_url" d <> item_get item "source_url" ->
            d ∈ c'.
Proof.
  intros E.
  destruct (process_item_collection _ _ _ _ _ _ _ E)
    as [-> | [(d0 & Hv & ->) | (fields & d0 & pre & rest & -> & Hk & -> & _ & _)]].
  - split; [lia | auto].
  - split; [rewrite length_app; simpl; lia|].
    intros d Hd _. apply elem_of_app. left. exact Hd.
  - split; [rewrite !length_app; simpl; lia|].
    intros d Hd Hne. rewrite elem_of_app, elem_of_cons in *.
    destruct Hd as [Hd | [-> | Hd]]; auto. contradiction.
Qed.

Lemma process_item_keeps_others_witness :
  exists r c',
    process_item later_time 2 3 [stored_article] item_without_photo = (r, c') /\
    (1 <= length c' <= 2)%nat /\ stored_article ∈ c'.
Proof.
  destruct (process_item later_time 2 3 [stored_article] item_without_photo)
    as [r c'] eqn:E.
  exists r, c'. split; [reflexivity|].
  destruct (process_item_keeps_others later_time 2 3 [stored_article]
              item_without_photo r c' E) as (Hlen & Hkeep).
  split; [exact Hlen|]. apply Hkeep.
  - apply list_elem_of_singleton. reflexivity.
  - vm_compute. discriminate.
Defined.

Lemma setdefault_lookup_eq k v (doc : Doc) :
  setdefault k v doc !! k = Some (default v (doc !! k)).
Proof.
  unfold setdefault. destruct (doc !! k) eqn:E; [rewrite E; reflexivity|].
  apply lookup_insert_eq.
Qed.

(** X29. The dictionary written to the store always has the two optional
    photo fields and the timestamp: a photo field the record lacks is an
    explicit [None], one it has keeps its value, [parsed_at_utc] is the time
    of the write, and every other field is as in the record. *)
Theorem make_doc_fields (now : pystr) (item : Item) :
  make_doc now item !! "parsed_at_utc" = Some (VStr now) /\
  make_doc now item !! "header_photo_url"
  = Some (item_get item "header_photo_url") /\
  make_doc now item !! "header_photo_base64"
  = Some (item_get item "header_photo_base64") /\
  (forall k, k <> "parsed_at_utc"%string ->
             k <> "header_photo_url"%string ->
             k <> "header_photo_base64"%string ->
             make_doc now item !! k = item !! k).
Proof.
  split; [apply lookup_insert_eq|]. split; [|split].
  - unfold make_doc.
    etransitivity; [apply lookup_insert_ne; discriminate|].
    etransitivity; [apply setdefault_lookup_ne; discriminate|].
    apply setdefault_lookup_eq.
  - unfold make_doc.
    etransitivity; [apply lookup_insert_ne; discriminate|].
    etransitivity; [apply setdefault_lookup_eq|].
    f_equal. unfold item_get. f_equal. apply setdefault_lookup_ne. discriminate.
  - intros k H1 H2 H3. apply make_doc_lookup_ne; assumption.
Qed.

(** X24. A record without [_id] whose [source_url] is not stored yet is
    inserted: [process_item] returns the record, the collection holds one
    document more, the only one under that [source_url], and this document
    is the record's dictionary with the fresh [_id]. *)
Theorem process_item_inserts_new
        (now : pystr) (oid oid' : N) (c : Collection) (item : Item) :
  indexes_hold c ->
  item !! "_id" = None ->
  (forall d, d ∈ c -> index_key "_id" d <> VObjectId oid) ->
  (forall d, d ∈ c -> index_key "source_url" d <> item_get item "source_url") ->
  let doc := <[ "_id" := VObjectId oid ]> (make_doc now item) in
  process_item now oid oid' c item = (inr item, c ++ [doc]) /\
  stored_under (item_get item "source_url") (c ++ [doc]) = [doc] /\
  indexes_hold (c ++ [doc]).
Proof.
  intros Hc Hid Hfresh Hnew doc.
  assert (Hkid : index_key "_id" doc = VObjectId oid).
  { unfold index_key, doc, Doc. rewrite lookup_insert_eq. reflexivity. }
  assert (Hkurl : index_key "source_url" doc = item_get item "source_url").
  { unfold index_key, item_get. f_equal. unfold doc.
    etransitivity; [apply lookup_insert_ne; discriminate|].
    apply make_doc_lookup_ne; discriminate. }
  assert (Hv : violates_unique c doc = false).
  { unfold violates_unique. apply orb_false_iff. split.
    - apply existsb_has_key_false. rewrite Hkid. intros Hin.
      apply list_elem_of_fmap in Hin as (d & Hd & Hin).
      apply (Hfresh d Hin). symmetry. exact Hd.
    - apply existsb_has_key_false. rewrite Hkurl. intros Hin.
      apply list_elem_of_fmap in Hin as (d & Hd & Hin).
      apply (Hnew d Hin). symmetry. exact Hd. }
  pose proof (indexes_hold_snoc c doc Hc Hv) as Hc'.
  split; [apply process_item_new; assumption|]. split; [|exact Hc'].
  apply stored_under_unique; [apply Hc' | | exact Hkurl].
  apply elem_of_app. right. apply list_elem_of_singleton. reflexivity.
Qed.

Lemma process_item_inserts_new_witness :
  let doc := <[ "_id" := VObjectId 2 ]> (make_doc later_time item_without_photo) in
  process_item later_time 2 3 [stored_article] item_without_photo
  = (inr item_without_photo, [stored_article] ++ [doc]) /\
  stored_under (item_get item_without_photo "source_url") ([stored_article] ++ [doc])
  = [doc] /\
  indexes_hold ([stored_article] ++ [doc]).
Proof.
  apply (process_item_inserts_new later_time 2 3 [stored_article] item_without_photo).
  - split; simpl; apply NoDup_singleton.
  - vm_compute. reflexivity.
  - intros d Hd. apply list_elem_of_singleton in Hd. subst d. vm_compute. discriminate.
  - intros d Hd. apply list_elem_of_singleton in Hd. subst d. vm_compute. discriminate.
Defined.

(** X27. A record without [source_url] is refused once a document without
    [source_url] (or with a null one) is stored: the unique index counts the
    missing field as null, the insert fails, and reading [doc["source_url"]]
    for the update raises [KeyError]; the collection is left as it was. *)
Theorem process_item_missing_source_url
        (now : pystr) (oid oid' : N) (c : Collection) (item : Item) :
  item !! "source_url" = None ->
  (exists d, d ∈ c /\ index_key "source_url" d = VNone) ->
  process_item now oid oid' c item = (inl (KeyError "source_url"), c).
Proof.
  intros Hurl Hex. unfold process_item, insert_one.
  set (doc := match make_doc now item !! "_id" with
              | Some _ => make_doc now item
              | None => <[ "_id" := VObjectId oid ]> (make_doc now item)
              end).
  assert (Hd : doc !! "source_url" = None).
  { rewrite <- Hurl. unfold doc. destruct (make_doc now item !! "_id").
    - apply make_doc_lookup_ne; discriminate.
    - etransitivity; [apply lookup_insert_ne; discriminate|].
      apply make_doc_lookup_ne; discriminate. }
  assert (Hv : violates_unique c doc = true).
  { unfold violates_unique. apply orb_true_iff. right.
    assert (Hk : index_key "source_url" doc = VNone)
      by (unfold index_key; rewrite Hd; reflexivity).
    rewrite Hk. apply existsb_has_key. exact Hex. }
  rewrite Hv, Hd. reflexivity.
Qed.

(** A record that lost its [source_url], and a collection that already holds
    such a document. *)
Definition item_without_url : Item := <[ "title" := VStr (py "T") ]> ∅.

Definition stored_without_url : Doc :=
  <[ "_id" := VObjectId 1 ]> (<[ "title" := VStr (py "earlier") ]> ∅).

Lemma process_item_missing_source_url_witness :
  process_item later_time 2 3 [stored_without_url] item_without_url
  = (inl (KeyError "source_url"), [stored_without_url]).
Proof.
  apply (process_item_missing_source_url later_time 2 3 [stored_without_url]
           item_without_url).
  - reflexivity.
  - exists stored_without_url. split; [|reflexivity].
    apply list_elem_of_singleton. reflexivity.
Defined.

(** X28. When a document is already stored under the record's [source_url]
    and the record has no [_id] of its own, [process_item] ends with
    [WriteError] and leaves the collection as it was: the dictionary given
    to [update_one] carries the [_id] that [insert_one] has just put into
    it, which is not the stored document's. *)
Theorem process_item_conflict_rejected
        (now : pystr) (oid oid' : N) (c : Collection) (item : Item) (v : value) :
  item !! "source_url" = Some v ->
  item !! "_id" = None ->
  (forall d, d ∈ c -> index_key "_id" d <> VObjectId oid) ->
  (exists d, d ∈ c /\ index_key "source_url" d = v) ->
  process_item now oid oid' c item = (inl WriteError, c).
Proof. apply process_item_conflict. Qed.

Lemma process_item_conflict_rejected_witness :
  process_item later_time 2 3 [stored_article] later_parse
  = (inl WriteError, [stored_article]).
Proof.
  apply (process_item_conflict_rejected later_time 2 3 [stored_article]
           later_parse (VStr article_url)).
  - vm_compute. reflexivity.
  - vm_compute. reflexivity.
  - intros d Hd. apply list_elem_of_singleton in Hd. subst d. vm_compute. discriminate.
  - exists stored_article. split; [|vm_compute; reflexivity].
    apply list_elem_of_singleton. reflexivity.
Defined.

End MongoExtras.

(** ** Instances of the shape properties *)

Section ShapeInstances.

Import MongoPipeline.

Lemma clean_text_shape_witness :
  clean_text (Some (py "  a   b  ")) = py "a b" /\
  isspace 97 = false /\ isspace 98 = false.
Proof.
  pose proof (clean_text_shape (Some (py "  a   b  "))) as (_ & _ & Hfirst & Hlast).
  split; [vm_compute; reflexivity|]. split.
  - apply (Hfirst 97%N (py " b")). vm_compute. reflexivity.
  - apply (Hlast (py "a ") 98%N). vm_compute. reflexivity.
Defined.

Lemma make_doc_fields_witness :
  make_doc later_time later_parse !! "header_photo_url" = Some VNone /\
  make_doc later_time later_parse !! "title" = later_parse !! "title".
Proof.
  pose proof (make_doc_fields later_time later_parse) as (_ & Hu & _ & Hk).
  split; [exact Hu|].
  apply Hk; discriminate.
Defined.

End ShapeInstances.

(** ** The target count: how many URLs [parse_list] yields, and why fewer *)

Section TargetCount.

Import KpArticlesSpider.

(** The two attempts to bring the control into view, lines 92-98: [True]
    when one of them went through. *)
Definition scroll_to_control {P : Type} `{Page P} : M bool :=
  try_except
    (bind (do_unit (locator_scroll_into_view_if_needed SEL_SHOW_MORE))
          (fun _ => ret true))
    (try_except (bind (do_unit evaluate_scrollTo) (fun _ => ret true))
                (ret false)).

(** The reveal-more control has disappeared from the page in world [w], or
    is there and cannot be acted on: it cannot be brought into view (the
    scroll to it and the scroll to the bottom of the page both raise), or the
    click on it raises. *)
Inductive control_failure {P : Type} `{Page P} (w : World) : Prop :=
  | control_absent (p1 : P) :
      page_count SEL_SHOW_MORE (fst w) = (inr 0, p1) ->
      control_failure w
  | control_out_of_reach (n : Z) (w1 w2 : World) (e1 : exn) (w3 : World)
                         (e2 : exn) (w4 : World) :
      do_count SEL_SHOW_MORE w = (inr n, w1) -> n <> 0 ->
      try_dismiss_overlays w1 = (inr tt, w2) ->
      do_unit (locator_scroll_into_view_if_needed SEL_SHOW_MORE) w2 = (inl e1, w3) ->
      do_unit evaluate_scrollTo w3 = (inl e2, w4) ->
      control_failure w
  | control_click_failed (n : Z) (w1 w2 w3 : World) (e : exn) (w4 : World) :
      do_count SEL_SHOW_MORE w = (inr n, w1) -> n <> 0 ->
      try_dismiss_overlays w1 = (inr tt, w2) ->
      scroll_to_control w2 = (inr true, w3) ->
      do_unit (locator_click SEL_SHOW_MORE) w3 = (inl e, w4) ->
      control_failure w.

(** [click_show_more_and_wait] returns [False] exactly on such a failure. *)
Lemma click_show_more_false {P : Type} `{Page P} (prev : Z) (w : World) :
  (exists w', click_show_more_and_wait prev w = (inr false, w')) <->
  control_failure w.
Proof.
  split.
  - intros (w' & Hrun). revert Hrun.
    unfold click_show_more_and_wait. unfold bind at 1.
    destruct (do_count SEL_SHOW_MORE w) as [[e|n] w1] eqn:Ec; [discriminate|].
    destruct (Z.eqb_spec n 0) as [->|Hn].
    { intros _. rewrite do_count_run in Ec.
      destruct (page_count SEL_SHOW_MORE w.1) as [rc p1] eqn:Ep.
      cbn [fst snd] in Ec. injection Ec as -> _.
      eapply control_absent. exact Ep. }
    unfold bind at 1.
    destruct (try_dismiss_overlays w1) as [[e|[]] w2] eqn:Ed; [discriminate|].
    unfold bind at 1. fold (@scroll_to_control P _).
    destruct (scroll_to_control w2) as [[e|scrolled] w3] eqn:Es; [discriminate|].
    destruct scrolled; cbn [negb].
    + unfold bind at 1. unfold try_except at 1. unfold bind at 1.
      destruct (do_unit (locator_click SEL_SHOW_MORE) w3) as [[e|[]] w4] eqn:Ek.
      * intros _. eapply control_click_failed; eassumption.
      * cbn [ret negb]. unfold bind at 1.
        destruct (best_effort_returns (wait_for_function prev) w4) as (p5 & ->).
        unfold bind at 1.
        match goal with
        | |- context [best_effort (wait_for_timeout 600) ?w0] =>
            destruct (best_effort_returns (wait_for_timeout 600) w0) as (p6 & ->)
        end.
        discriminate.
    + intros _. revert Es. unfold scroll_to_control.
      unfold try_except at 1. unfold bind at 1.
      destruct (do_unit (locator_scroll_into_view_if_needed SEL_SHOW_MORE) w2)
        as [[e1|[]] w3'] eqn:E1; [|discriminate].
      unfold try_except at 1. unfold bind at 1.
      destruct (do_unit evaluate_scrollTo w3') as [[e2|[]] w4] eqn:E2; [|discriminate].
      intros _. eapply control_out_of_reach; eassumption.
  - intros [p1 Hc | n w1 w2 e1 w3 e2 w4 Hc Hn Hd H1 H2 | n w1 w2 w3 e w4 Hc Hn Hd Hs Hk].
    + eexists. unfold click_show_more_and_wait, bind.
      rewrite do_count_run, Hc. reflexivity.
    + eexists. unfold click_show_more_and_wait. unfold bind at 1. rewrite Hc.
      destruct (Z.eqb_spec n 0); [contradiction|].
      unfold bind at 1. rewrite Hd. unfold bind at 1.
      unfold try_except at 1. unfold bind at 1. rewrite H1.
      unfold try_except at 1. unfold bind at 1. rewrite H2.
      reflexivity.
    + eexists. unfold click_show_more_and_wait. unfold bind at 1. rewrite Hc.
      destruct (Z.eqb_spec n 0); [contradiction|].
      unfold bind at 1. rewrite Hd. unfold bind at 1.
      fold (@scroll_to_control P _). rewrite Hs. cbn [negb].
      unfold bind at 1. unfold try_except at 1. unfold bind at 1. rewrite Hk.
      reflexivity.
Qed.

Lemma round_break {P : Type} `{Page P} (self : Spider) (st : HarvestState)
      (w w' : World) :
  round self st w = (inr None, w') ->
  exists prev w1,
    do_count SEL_NEWS w = (inr prev, w1) /\
    click_show_more_and_wait prev w1 = (inr false, w').
Proof.
  unfold round. unfold bind at 1.
  destruct (do_count SEL_NEWS w) as [[e|prev] w1]; [discriminate|].
  unfold bind at 1.
  destruct (click_show_more_and_wait prev w1) as [[e|[|]] w2] eqn:Ek;
    [discriminate| |].
  - cbn [negb]. unfold bind at 1.
    destruct (collect_urls_from_dom w2) as [[e|current] w3]; discriminate.
  - intros [= <-]. exists prev, w1. split; [reflexivity | exact Ek].
Qed.

(** The head of the [while] at which it is left. *)
Lemma while_loop_head {P : Type} `{Page P} (self : Spider) (fuel : nat)
      (st0 : HarvestState) (w0 : World)
      (st : HarvestState) (ex : loop_exit) (w1 : World) :
  while_loop self fuel st0 w0 = (inr (st, ex), w1) ->
  ex <> Running ->
  exists k w_k,
    while_loop self k st0 w0 = (inr (st, Running), w_k) /\
    match ex with
    | CondFalse => loop_cond self st = false /\ w_k = w1
    | Break => loop_cond self st = true /\ round self st w_k = (inr None, w1)
    | Running => False
    end.
Proof.
  revert st0 w0; induction fuel as [|fuel IH]; intros st0 w0; simpl.
  - intros [= <- <- <-] Hne. congruence.
  - destruct (loop_cond self st0) eqn:Ec.
    2:{ intros [= <- <- <-] _. exists 0%nat, w0. split; [reflexivity|]. auto. }
    unfold bind. destruct (round self st0 w0) as [[e|[st'|]] wa] eqn:Er;
      [discriminate| |].
    + intros Hrun Hne. destruct (IH _ _ Hrun Hne) as (k & w_k & Hk & Hm).
      exists (S k), w_k. split; [|exact Hm].
      simpl. rewrite Ec. unfold bind. rewrite Er. exact Hk.
    + intros [= <- <- <-] _. exists 0%nat, w0. split; [reflexivity|]. auto.
Qed.

Lemma harvest_head {P : Type} `{Page P} (self : Spider) (fuel : nat) (w : World)
      (st : HarvestState) (ex : loop_exit) (w1 : World) :
  harvest self fuel w = (inr (st, ex), w1) ->
  ex <> Running ->
  exists k w_k,
    harvest self k w = (inr (st, Running), w_k) /\
    match ex with
    | CondFalse => loop_cond self st = false /\ w_k = w1
    | Break => loop_cond self st = true /\ round self st w_k = (inr None, w1)
    | Running => False
    end.
Proof.
  unfold harvest. unfold bind at 1 3.
  destruct (best_effort (wait_for_selector SEL_SHOW_MORE) w) as [[e|[]] wa];
    [discriminate|].
  unfold bind at 1 2.
  destruct (collect_urls_from_dom wa) as [[e|urls] wb]; [discriminate|].
  apply while_loop_head.
Qed.

Lemma while_loop_idle {P : Type} `{Page P} (self : Spider) (fuel : nat)
      (st : HarvestState) (w : World)
      (st' : HarvestState) (ex : loop_exit) (w' : World) :
  posts_limit self <= 0 ->
  while_loop self fuel st w = (inr (st', ex), w') -> st' = st.
Proof.
  intros Hn. destruct fuel as [|fuel]; simpl; [intros [= <- _ _]; reflexivity|].
  replace (loop_cond self st) with false; [intros [= <- _ _]; reflexivity|].
  symmetry. unfold loop_cond.
  destruct (Z.ltb_spec (len (ordered_urls st)) (posts_limit self)); [|reflexivity].
  unfold len in *. lia.
Qed.

Lemma harvest_nonpositive {P : Type} `{Page P} (self : Spider) (fuel : nat)
      (w : World) (st : HarvestState) (ex : loop_exit) (w' : World) :
  posts_limit self <= 0 ->
  harvest self fuel w = (inr (st, ex), w') ->
  (length (ordered_urls st) <= 1)%nat.
Proof.
  intros Hn Hrun. destruct (harvest_start _ _ _ _ _ _ Hrun) as (urls & w1 & Hw).
  rewrite (while_loop_idle _ _ _ _ _ _ _ Hn Hw). cbn [ordered_urls].
  apply (add_new_nonpositive _ _ (∅, []) Hn).
Qed.

(** C6, as stated, fails for a negative target count: with [limit = -1]
    [parse_list] yields no request, and zero is more than the target. *)
Lemma parse_list_negative_target :
  exists w',
    parse_list (init (Some (-1))) (scenario, []) = (inr (Some []), w') /\
    ~ (len (@nil pystr) <= posts_limit (init (Some (-1)))).
Proof.
  eexists. split; [vm_compute; reflexivity|].
  unfold len. simpl. lia.
Qed.

(** C6, amended.  For every target count [N], whenever [parse_list] returns
    it yields at most [max N 0] URLs.  When it yields fewer than [N], these
    are all the links the session has shown, and at the head of the [while]
    at which the loop was left the click ceiling was reached, or the stall
    limit was reached, or the reveal-more control had disappeared or could
    not be acted on in the pass then started. *)
Theorem parse_list_at_most_limit {P : Type} `{Page P}
        (self : Spider) (p : P) (r : option (list pystr)) (w' : World) :
  parse_list self (p, []) = (inr r, w') ->
  exists urls,
    r = Some urls /\
    len urls <= Z.max 0 (posts_limit self) /\
    (len urls < posts_limit self ->
     urls = dict_fromkeys (observed (snd w')) /\
     exists k st w_k,
       harvest self k (p, []) = (inr (st, Running), w_k) /\
       urls = ordered_urls st /\
       (MAX_SHOW_MORE_CLICKS self <= clicks st \/
        STALL_LIMIT self <= stalls st \/
        exists prev w1,
          do_count SEL_NEWS w_k = (inr prev, w1) /\ control_failure w1)).
Proof.
  intros Hrun.
  destruct (parse_list_returns _ _ _ _ Hrun) as (st & ex & w1 & Eh & Hne & -> & Hlog).
  eexists. split; [reflexivity|]. split.
  - destruct (Z.le_gt_cases 0 (posts_limit self)) as [Hn|Hn].
    + rewrite Z.max_r by exact Hn. apply slice_to_length, Hn.
    + assert (Hn' : posts_limit self <= 0) by lia.
      pose proof (harvest_nonpositive _ _ _ _ _ _ Hn' Eh) as Hlen.
      unfold slice_to. destruct (Z.leb_spec 0 (posts_limit self)); [lia|].
      replace (Z.to_nat (len (ordered_urls st) + posts_limit self)) with 0%nat
        by (unfold len; lia).
      simpl. unfold len. simpl. lia.
  - intros Hlt.
    assert (Hn : 0 <= posts_limit self)
      by (pose proof (Zle_0_nat (length (slice_to (ordered_urls st) (posts_limit self))));
          unfold len in Hlt; lia).
    pose proof (slice_to_short _ _ Hn Hlt) as Hall. rewrite Hall in *.
    destruct (harvest_spec _ _ _ _ _ _ Eh) as (_ & _ & Hfull).
    split.
    { rewrite Hlog, observed_app. simpl. rewrite app_nil_r. apply Hfull, Hlt. }
    destruct (harvest_head _ _ _ _ _ _ Eh Hne) as (k & w_k & Hk & Hm).
    exists k, st, w_k. split; [exact Hk|]. split; [reflexivity|].
    destruct ex; [| |contradiction].
    + destruct Hm as [Hc _]. unfold loop_cond in Hc.
      destruct (Z.ltb_spec (len (ordered_urls st)) (posts_limit self)); [|lia].
      destruct (Z.ltb_spec (clicks st) (MAX_SHOW_MORE_CLICKS self));
        [|left; assumption].
      destruct (Z.ltb_spec (stalls st) (STALL_LIMIT self)); [discriminate|].
      right; left; assumption.
    + destruct Hm as [_ Hr]. right; right.
      destruct (round_break _ _ _ _ Hr) as (prev & wa & Hc & Hf).
      exists prev, wa. split; [exact Hc|].
      apply (click_show_more_false prev). eexists. exact Hf.
Qed.

Lemma parse_list_at_most_limit_witness :
  exists r w',
    parse_list (init (Some 50)) (scenario, []) = (inr r, w') /\
    exists urls,
      r = Some urls /\
      len urls <= Z.max 0 50 /\
      (len urls < 50 ->
       urls = dict_fromkeys (observed (snd w')) /\
       exists k st w_k,
         harvest (init (Some 50)) k (scenario, []) = (inr (st, Running), w_k) /\
         urls = ordered_urls st /\
         (10000 <= clicks st \/ 10 <= stalls st \/
          exists prev w1,
            do_count SEL_NEWS w_k = (inr prev, w1) /\ control_failure w1)).
Proof.
  destruct (parse_list (init (Some 50)) (scenario, [])) as [[e|r] w'] eqn:E;
    [vm_compute in E; discriminate|].
  exists r, w'. split; [reflexivity|].
  exact (parse_list_at_most_limit (init (Some 50)) scenario r w' E).
Defined.

End TargetCount.

(** ** The storage sink on an article parsed twice *)

Section MongoConflict.

Import MongoPipeline.

(** The same article rendered at two times: its heading has changed. *)
Definition article_at (title : pystr) : Response :=
  {| url := py "https://www.kp.ru/online/news/1/?utm_source=list";
     h1_text := Some title; og_title := None;
     meta_description := Some (py "What happened"); og_description := None;
     published_time := Some (py "2024-01-01T10:00:00+03:00"); time_datetime := None;
     og_image := None;
     meta_keywords := Some (py "news, city"); tag_texts := [];
     meta_author := Some (py "A. Author"); author_texts := [];
     body_texts := [py "First paragraph."; py "Second paragraph."] |}.

Definition first_parse : Item := parse_article (article_at (py "old title")).
Definition second_parse : Item := parse_article (article_at (py "new title")).

(** The collection after the first parse has been stored in an empty one. *)
Definition after_first_parse : Collection :=
  snd (process_item (py "2024-01-01T00:00:00+00:00") 1 11 [] first_parse).

(** C1. The second parse of an article already stored is not written: the
    insert is refused, the update is rejected with [WriteError] because the
    dictionary carries the [_id] the insert has put into it, [process_item]
    raises, and the one document stored under the URL keeps the old title. *)
Theorem process_item_second_parse_lost :
  process_item later_time 2 12 after_first_parse second_parse
  = (inl WriteError, after_first_parse) /\
  second_parse !! "title" = Some (VStr (py "new title")) /\
  exists d,
    stored_under (VStr article_url) after_first_parse = [d] /\
    d !! "title" = Some (VStr (py "old title")).
Proof.
  split; [vm_compute; reflexivity|].
  split; [vm_compute; reflexivity|].
  eexists. split; vm_compute; reflexivity.
Qed.

End MongoConflict.
